(** * SQLCompare: schema-dump parser and directional diff engine

    A shallow embedding of the Go program (the complete variant, with
    indexes, constraints and [groupByType]) and the properties of its
    parser and diff engine.

    Modelling conventions.
    - Go strings are byte sequences: [string] (a list of [ascii]).
    - A Go [map[string]V] is a [gmap string V].  A nil map and an empty
      map read alike, and the code only ever reads the nil ones, so both
      are [∅].
    - [for ... range m] visits the entries of [m] in an order that Go leaves
      unspecified.  The order is a parameter of the diff engine
      ([RangeOrder]); every theorem holds for every order.
    - An index or slice expression out of range is a run-time panic: the
      parser runs in the [option] monad and [None] is the panic. *)

From Stdlib Require Import Ascii String.
From stdpp Require Import gmap strings list fin_maps.

Open Scope string_scope.
Open Scope list_scope.

(** ** Data model *)

Record Column := mkColumn {
  Column_Name : string;
  Column_Type : string;
  Column_Other : string
}.

Record Index := mkIndex {
  Index_Name : string;
  Index_ColumnName : string
}.

Record Constraint := mkConstraint {
  Constraint_Name : string;
  Constraint_ColumnName : string;
  Constraint_Type : string;
  Constraint_Other : string
}.

Record Table := mkTable {
  Name : string;
  Columns : gmap string Column;
  Indexes : gmap string Index;
  Constraints : gmap string (gmap string Constraint)
}.

Definition MissingTable : string := "MISSING_TABLE".
Definition MissingColumn : string := "MISSING_COLUMN".
Definition WrongColumnType : string := "WRONG_COLUMN_TYPE".
Definition WrongColumnOther : string := "WRONG_COLUMN_OTHER".
Definition MissingIndex : string := "MISSING_INDEX".
Definition MissingConstraint : string := "MISSING_CONSTRAINT".
Definition WrongConstraintOther : string := "WRONG_CONSTRAINT_OTHER".

Record Diff := mkDiff {
  Diff_Type : string;
  Diff_Target : string;
  Diff_A : string;
  Diff_B : string
}.

(** ** The [strings] primitives the program calls

    Each is used with a one-byte separator or cutset only. *)

Module strings.

(** [strings.Split(s, sep)] for a one-byte [sep]: one more piece than
    there are separators; the empty string gives one empty piece. *)
Fixpoint Split (s : string) (sep : ascii) : list string :=
  match s with
  | EmptyString => [EmptyString]
  | String c s' =>
      if decide (c = sep) then EmptyString :: Split s' sep
      else match Split s' sep with
           | [] => [String c EmptyString]
           | w :: ws => String c w :: ws
           end
  end.

Fixpoint trimLeftByte (s : string) (c : ascii) : string :=
  match s with
  | EmptyString => EmptyString
  | String a s' => if decide (a = c) then trimLeftByte s' c else s
  end.

Fixpoint trimRightByte (s : string) (c : ascii) : string :=
  match s with
  | EmptyString => EmptyString
  | String a s' =>
      match trimRightByte s' c with
      | EmptyString => if decide (a = c) then EmptyString else String a EmptyString
      | r => String a r
      end
  end.

(** [strings.Trim(s, cutset)] for a one-byte cutset. *)
Definition Trim (s : string) (c : ascii) : string :=
  trimLeftByte (trimRightByte s c) c.

(** [strings.Join(elems, sep)]. *)
Fixpoint Join (elems : list string) (sep : string) : string :=
  match elems with
  | [] => EmptyString
  | [e] => e
  | e :: rest => e +:+ sep +:+ Join rest sep
  end.

End strings.

(** [fmt.Sprintf("%s.%s", a, b)]. *)
Definition dotted (a b : string) : string := a +:+ "." +:+ b.

(** ** groupByType *)

Record Buckets := mkBuckets {
  missingTable : list Diff;
  missingColumn : list Diff;
  wrongColumnType : list Diff;
  wrongColumnOther : list Diff;
  missingIndex : list Diff;
  missingConstraint : list Diff;
  wrongConstraintOther : list Diff
}.

Definition emptyBuckets : Buckets := mkBuckets [] [] [] [] [] [] [].

(** One turn of the [switch d.Type] loop; a type that is none of the seven
    constants matches no case and the record is dropped. *)
Definition bucketStep (b : Buckets) (d : Diff) : Buckets :=
  let t := Diff_Type d in
  if decide (t = MissingTable) then
    mkBuckets (missingTable b ++ [d]) (missingColumn b) (wrongColumnType b)
      (wrongColumnOther b) (missingIndex b) (missingConstraint b)
      (wrongConstraintOther b)
  else if decide (t = MissingColumn) then
    mkBuckets (missingTable b) (missingColumn b ++ [d]) (wrongColumnType b)
      (wrongColumnOther b) (missingIndex b) (missingConstraint b)
      (wrongConstraintOther b)
  else if decide (t = WrongColumnType) then
    mkBuckets (missingTable b) (missingColumn b) (wrongColumnType b ++ [d])
      (wrongColumnOther b) (missingIndex b) (missingConstraint b)
      (wrongConstraintOther b)
  else if decide (t = WrongColumnOther) then
    mkBuckets (missingTable b) (missingColumn b) (wrongColumnType b)
      (wrongColumnOther b ++ [d]) (missingIndex b) (missingConstraint b)
      (wrongConstraintOther b)
  else if decide (t = MissingIndex) then
    mkBuckets (missingTable b) (missingColumn b) (wrongColumnType b)
      (wrongColumnOther b) (missingIndex b ++ [d]) (missingConstraint b)
      (wrongConstraintOther b)
  else if decide (t = MissingConstraint) then
    mkBuckets (missingTable b) (missingColumn b) (wrongColumnType b)
      (wrongColumnOther b) (missingIndex b) (missingConstraint b ++ [d])
      (wrongConstraintOther b)
  else if decide (t = WrongConstraintOther) then
    mkBuckets (missingTable b) (missingColumn b) (wrongColumnType b)
      (wrongColumnOther b) (missingIndex b) (missingConstraint b)
      (wrongConstraintOther b ++ [d])
  else b.

Definition groupByType (ds : list Diff) : list Diff :=
  let b := foldl bucketStep emptyBuckets ds in
  let slices :=
    [ missingTable b; missingColumn b; wrongColumnType b; wrongColumnOther b;
      missingConstraint b; wrongConstraintOther b; missingIndex b ] in
  foldl (λ res slice, res ++ slice) [] slices.

(** ** compareTables *)

(** The order in which a [range] loop visits a map: some enumeration of its
    entries, each exactly once.  Go fixes no order; the engine below takes
    one as a parameter and the theorems quantify over all of them. *)
Record RangeOrder := mkRangeOrder {
  range : ∀ V : Type, gmap string V → list (string * V);
  range_perm : ∀ (V : Type) (m : gmap string V), range V m ≡ₚ map_to_list m
}.
Arguments range _ {V} _.

Definition defaultOrder : RangeOrder :=
  mkRangeOrder (λ V m, map_to_list m) (λ V m, reflexivity _).

(** What one turn of each loop appends to [diffs]. *)

Definition columnDiffs (tableA tableB : Table) (columnA : Column) : list Diff :=
  match Columns tableB !! Column_Name columnA with
  | None => [mkDiff MissingColumn (Name tableA) (Column_Name columnA) ""]
  | Some columnB =>
      (if decide (Column_Type columnA ≠ Column_Type columnB) then
         [mkDiff WrongColumnType (dotted (Name tableA) (Column_Name columnA))
            (Column_Type columnA) (Column_Type columnB)]
       else [])
      ++
      (if decide (Column_Other columnA ≠ Column_Other columnB) then
         [mkDiff WrongColumnOther (dotted (Name tableA) (Column_Name columnA))
            (Column_Other columnA) (Column_Other columnB)]
       else [])
  end.

Definition indexDiffs (tableA tableB : Table) (indexA : Index) : list Diff :=
  match Indexes tableB !! Index_ColumnName indexA with
  | None => [mkDiff MissingIndex (dotted (Name tableA) (Index_ColumnName indexA))
               (Index_Name indexA) ""]
  | Some _ => []
  end.

(** [tableB.Constraints[columnNameA][constraintTypeA]]: a missing outer key
    reads as the nil inner map. *)
Definition lookupConstraint (tableB : Table) (columnName constraintType : string)
  : option Constraint :=
  default ∅ (Constraints tableB !! columnName) !! constraintType.

Definition constraintDiffs (tableA tableB : Table) (columnNameA : string)
    (entry : string * Constraint) : list Diff :=
  let '(constraintTypeA, constraintA) := entry in
  match lookupConstraint tableB columnNameA constraintTypeA with
  | None => [mkDiff MissingConstraint (dotted (Name tableA) columnNameA)
               (Constraint_Type constraintA) ""]
  | Some constraintB =>
      if decide (Constraint_Other constraintA ≠ Constraint_Other constraintB) then
        [mkDiff WrongConstraintOther
           (dotted (dotted (Name tableA) columnNameA) (Constraint_Type constraintA))
           (Constraint_Other constraintA) (Constraint_Other constraintB)]
      else []
  end.

(** A loop that appends to [diffs]. *)
Definition appendEach {X : Type} (body : X → list Diff) (xs : list X)
    (diffs : list Diff) : list Diff :=
  foldl (λ diffs x, diffs ++ body x) diffs xs.

Section compare.
Context (O : RangeOrder).

Definition columnConstraintDiffs (tableA tableB : Table)
    (entry : string * gmap string Constraint) : list Diff :=
  let '(columnNameA, columnsWithConstraintsA) := entry in
  appendEach (constraintDiffs tableA tableB columnNameA)
    (range O columnsWithConstraintsA) [].

Definition tableDiffs (tableMapB : gmap string Table) (tableA : Table)
  : list Diff :=
  match tableMapB !! Name tableA with
  | None => [mkDiff MissingTable (Name tableA) (Name tableA) ""]
  | Some tableB =>
      let diffs := appendEach (columnDiffs tableA tableB)
                     (range O (Columns tableA)).*2 [] in
      let diffs := appendEach (indexDiffs tableA tableB)
                     (range O (Indexes tableA)).*2 diffs in
      appendEach (columnConstraintDiffs tableA tableB)
        (range O (Constraints tableA)) diffs
  end.

Definition compareTables (tableMapA tableMapB : gmap string Table) : list Diff :=
  appendEach (tableDiffs tableMapB) (range O tableMapA).*2 [].
End compare.

(** ** parseTables *)

Definition keywords : list string := ["PRIMARY"; "KEY"; "CONSTRAINT"; "UNIQUE"].

Definition isKeyword (str : string) : bool :=
  existsb (λ v, bool_decide (str = v) || bool_decide (str = "")
                || bool_decide (str = "--")) keywords.

(** [infos[n:]]: panics when [n] exceeds the length. *)
Definition sliceFrom (infos : list string) (n : nat) : option (list string) :=
  if decide (n ≤ length infos)%nat then Some (drop n infos) else None.

(** The parser's three local variables. *)
Record State := mkState {
  table : Table;
  tables : gmap string Table;
  analyzingTable : bool
}.

(** [var table Table; tables := make(...); var analyzingTable bool]. *)
Definition zeroTable : Table := mkTable "" ∅ ∅ ∅.
Definition initState : State := mkState zeroTable ∅ false.

(** [table.Columns[name] = column]. *)
Definition setColumn (t : Table) (name : string) (column : Column) : Table :=
  mkTable (Name t) (<[name := column]> (Columns t)) (Indexes t) (Constraints t).

(** [table.Indexes[columnName] = index]. *)
Definition setIndex (t : Table) (columnName : string) (index : Index) : Table :=
  mkTable (Name t) (Columns t) (<[columnName := index]> (Indexes t)) (Constraints t).

(** [if table.Constraints[columnName] == nil { ... = make(...) }] followed by
    [table.Constraints[columnName][constraintType] = constraint]. *)
Definition setConstraint (t : Table) (columnName constraintType : string)
    (constraint : Constraint) : Table :=
  let inner := default ∅ (Constraints t !! columnName) in
  mkTable (Name t) (Columns t) (Indexes t)
    (<[columnName := <[constraintType := constraint]> inner]> (Constraints t)).

Definition withTable (st : State) (t : Table) : State :=
  mkState t (tables st) (analyzingTable st).

(** The column name of a [KEY], [PRIMARY] or [UNIQUE] line. *)
Definition keyColumnName (token : string) : string :=
  let columnName := strings.Trim token "," in
  let columnName := strings.Trim columnName "(" in
  let columnName := strings.Trim columnName ")" in
  strings.Trim columnName "`".

(** The column name of a [CONSTRAINT] line. *)
Definition constraintColumnName (token : string) : string :=
  let columnName := strings.Trim token "(" in
  let columnName := strings.Trim columnName ")" in
  strings.Trim columnName "`".

(** The body of the loop over the lines; [None] is an index or slice
    expression out of range. *)
Definition parseLine (st : State) (value : string) : option State :=
  let value := strings.Trim value " " in
  let infos := strings.Split value " " in
  engine ← (if decide (1 < length infos)%nat
            then infos1 ← infos !! 1; Some (bool_decide (infos1 = "ENGINE=InnoDB"))
            else Some false);
  if engine : bool then Some st else
  infos0 ← infos !! 0;
  create ← (if decide (infos0 = "CREATE")
            then infos1 ← infos !! 1; Some (bool_decide (infos1 = "TABLE"))
            else Some false);
  if create : bool then
    let tables' := if analyzingTable st
                   then <[Name (table st) := table st]> (tables st)
                   else tables st in
    infos2 ← infos !! 2;
    let tableName := strings.Trim infos2 "`" in
    Some (mkState (mkTable tableName ∅ ∅ ∅) tables' true)
  else if analyzingTable st && negb (isKeyword infos0) then
    rest ← sliceFrom infos 2;
    let other := strings.Trim (strings.Join rest " ") "," in
    let name := strings.Trim infos0 "`" in
    infos1 ← infos !! 1;
    Some (withTable st (setColumn (table st) name (mkColumn name infos1 other)))
  else
    st ← (if analyzingTable st && bool_decide (infos0 = "KEY") then
            infos1 ← infos !! 1;
            let name := strings.Trim infos1 "`" in
            infos2 ← infos !! 2;
            let columnName := keyColumnName infos2 in
            Some (withTable st
                    (setIndex (table st) columnName (mkIndex name columnName)))
          else Some st);
    st ← (if analyzingTable st && bool_decide (infos0 = "CONSTRAINT") then
            infos1 ← infos !! 1;
            let name := strings.Trim infos1 "`" in
            infos4 ← infos !! 4;
            let columnName := constraintColumnName infos4 in
            constraintType ← infos !! 2;
            rest ← sliceFrom infos 5;
            let other := strings.Trim (strings.Join rest " ") "," in
            Some (withTable st
                    (setConstraint (table st) columnName constraintType
                       (mkConstraint name columnName constraintType other)))
          else Some st);
    if analyzingTable st
       && (bool_decide (infos0 = "PRIMARY") || bool_decide (infos0 = "UNIQUE")) then
      infos2 ← infos !! 2;
      let columnName := keyColumnName infos2 in
      let constraintType := infos0 in
      let name := columnName in
      Some (withTable st
              (setConstraint (table st) columnName constraintType
                 (mkConstraint name columnName constraintType "")))
    else Some st.

Fixpoint parseLines (st : State) (res : list string) : option State :=
  match res with
  | [] => Some st
  | value :: res' => st' ← parseLine st value; parseLines st' res'
  end.

Definition newline : ascii := Ascii.ascii_of_nat 10.

Definition parseTables (data : string) : option (gmap string Table) :=
  st ← parseLines initState (strings.Split data newline);
  Some (<[Name (table st) := table st]> (tables st)).

(** ** Vocabulary of the statements *)

(** The records of one kind, in their order of emission. *)
Definition ofType (k : string) (ds : list Diff) : list Diff :=
  filter (λ d, Diff_Type d = k) ds.

(** The seven kinds, in the report's priority order. *)
Definition kindOrder : list string :=
  [ MissingTable; MissingColumn; WrongColumnType; WrongColumnOther;
    MissingConstraint; WrongConstraintOther; MissingIndex ].

Definition knownType (d : Diff) : Prop := Diff_Type d ∈ kindOrder.

(** A table of [A] whose [Name] is [n]: the tables that [compareTables]
    checks against [B]'s table [n]. *)
Definition tableNamed (A : gmap string Table) (n : string) (tableA : Table) : Prop :=
  ∃ k, A !! k = Some tableA ∧ Name tableA = n.

(** The records [compareTables A B] may emit.  Each rule starts from an
    element of [A]: a table, one of its columns, one of its indexes, or
    one of its constraints. *)
Inductive emitted (A B : gmap string Table) : Diff → Prop :=
  | emitted_MissingTable k tableA :
      A !! k = Some tableA →
      B !! Name tableA = None →
      emitted A B (mkDiff MissingTable (Name tableA) (Name tableA) "")
  | emitted_MissingColumn k tableA tableB kc columnA :
      A !! k = Some tableA →
      B !! Name tableA = Some tableB →
      Columns tableA !! kc = Some columnA →
      Columns tableB !! Column_Name columnA = None →
      emitted A B (mkDiff MissingColumn (Name tableA) (Column_Name columnA) "")
  | emitted_WrongColumnType k tableA tableB kc columnA columnB :
      A !! k = Some tableA →
      B !! Name tableA = Some tableB →
      Columns tableA !! kc = Some columnA →
      Columns tableB !! Column_Name columnA = Some columnB →
      Column_Type columnA ≠ Column_Type columnB →
      emitted A B (mkDiff WrongColumnType
                     (dotted (Name tableA) (Column_Name columnA))
                     (Column_Type columnA) (Column_Type columnB))
  | emitted_WrongColumnOther k tableA tableB kc columnA columnB :
      A !! k = Some tableA →
      B !! Name tableA = Some tableB →
      Columns tableA !! kc = Some columnA →
      Columns tableB !! Column_Name columnA = Some columnB →
      Column_Other columnA ≠ Column_Other columnB →
      emitted A B (mkDiff WrongColumnOther
                     (dotted (Name tableA) (Column_Name columnA))
                     (Column_Other columnA) (Column_Other columnB))
  | emitted_MissingIndex k tableA tableB ki indexA :
      A !! k = Some tableA →
      B !! Name tableA = Some tableB →
      Indexes tableA !! ki = Some indexA →
      Indexes tableB !! Index_ColumnName indexA = None →
      emitted A B (mkDiff MissingIndex
                     (dotted (Name tableA) (Index_ColumnName indexA))
                     (Index_Name indexA) "")
  | emitted_MissingConstraint k tableA tableB columnNameA m constraintTypeA
      constraintA :
      A !! k = Some tableA →
      B !! Name tableA = Some tableB →
      Constraints tableA !! columnNameA = Some m →
      m !! constraintTypeA = Some constraintA →
      lookupConstraint tableB columnNameA constraintTypeA = None →
      emitted A B (mkDiff MissingConstraint (dotted (Name tableA) columnNameA)
                     (Constraint_Type constraintA) "")
  | emitted_WrongConstraintOther k tableA tableB columnNameA m constraintTypeA
      constraintA constraintB :
      A !! k = Some tableA →
      B !! Name tableA = Some tableB →
      Constraints tableA !! columnNameA = Some m →
      m !! constraintTypeA = Some constraintA →
      lookupConstraint tableB columnNameA constraintTypeA = Some constraintB →
      Constraint_Other constraintA ≠ Constraint_Other constraintB →
      emitted A B (mkDiff WrongConstraintOther
                     (dotted (dotted (Name tableA) columnNameA)
                        (Constraint_Type constraintA))
                     (Constraint_Other constraintA) (Constraint_Other constraintB)).

(** [B] and [B'] answer alike every lookup that the elements of [A] cause. *)
Definition sameAnswers (A B B' : gmap string Table) : Prop :=
  ∀ k tableA, A !! k = Some tableA →
    match B !! Name tableA, B' !! Name tableA with
    | None, None => True
    | Some tableB, Some tableB' =>
        (∀ kc columnA, Columns tableA !! kc = Some columnA →
           Columns tableB !! Column_Name columnA
           = Columns tableB' !! Column_Name columnA)
        ∧ (∀ ki indexA, Indexes tableA !! ki = Some indexA →
             Indexes tableB !! Index_ColumnName indexA
             = Indexes tableB' !! Index_ColumnName indexA)
        ∧ (∀ columnNameA m constraintTypeA constraintA,
             Constraints tableA !! columnNameA = Some m →
             m !! constraintTypeA = Some constraintA →
             lookupConstraint tableB columnNameA constraintTypeA
             = lookupConstraint tableB' columnNameA constraintTypeA)
    | _, _ => False
    end.

(** The data model's identities: a table is filed under its name, a column
    under its name, an index under the column it is defined on. *)
Definition wfTable (t : Table) : Prop :=
  (∀ k column, Columns t !! k = Some column → Column_Name column = k)
  ∧ (∀ k index, Indexes t !! k = Some index → Index_ColumnName index = k).

Definition wfSchema (A : gmap string Table) : Prop :=
  ∀ k t, A !! k = Some t → Name t = k ∧ wfTable t.

(** The tokens of a line, as the parser's loop computes them. *)
Definition lineInfos (value : string) : list string :=
  strings.Split (strings.Trim value " ") " ".

(** A line that opens a table: its first two tokens are [CREATE TABLE]. *)
Definition isHeaderLine (value : string) : bool :=
  match lineInfos value with
  | infos0 :: infos1 :: _ =>
      bool_decide (infos0 = "CREATE") && bool_decide (infos1 = "TABLE")
  | _ => false
  end.

(** No line of [data] opens a table. *)
Definition noHeaderLine (data : string) : bool :=
  forallb (λ value, negb (isHeaderLine value)) (strings.Split data newline).

(** A line whose only token is [CREATE]. *)
Definition isBareCreate (value : string) : bool :=
  bool_decide (lineInfos value = ["CREATE"]).

(** The constraint that a [CONSTRAINT], [PRIMARY] or [UNIQUE] line of a
    table body denotes. *)
Definition lineConstraint (value : string) : option Constraint :=
  match lineInfos value with
  | infos0 :: infos1 :: infos2 :: tl =>
      if bool_decide (infos1 = "ENGINE=InnoDB") then None
      else if bool_decide (infos0 = "CONSTRAINT") then
        match tl with
        | _ :: infos4 :: rest =>
            Some (mkConstraint (strings.Trim infos1 "`")
                    (constraintColumnName infos4) infos2
                    (strings.Trim (strings.Join rest " ") ","))
        | _ => None
        end
      else if bool_decide (infos0 = "PRIMARY") || bool_decide (infos0 = "UNIQUE")
      then Some (mkConstraint (keyColumnName infos2) (keyColumnName infos2)
                   infos0 "")
      else None
  | _ => None
  end.

(** A constraint is filed under its own column name and kind. *)
Definition constraintsKeyed (t : Table) : Prop :=
  ∀ columnName m constraintType c,
    Constraints t !! columnName = Some m → m !! constraintType = Some c →
    Constraint_ColumnName c = columnName ∧ Constraint_Type c = constraintType.

(** [c] is one of the constraints that table [t] holds. *)
Definition hasConstraint (t : Table) (c : Constraint) : Prop :=
  ∃ columnName m constraintType,
    Constraints t !! columnName = Some m ∧ m !! constraintType = Some c.

(** What the parser maintains of a table: the data model's identities. *)
Definition goodTable (t : Table) : Prop := wfTable t ∧ constraintsKeyed t.

Definition goodTables (ts : gmap string Table) : Prop :=
  ∀ k t, ts !! k = Some t → Name t = k ∧ goodTable t.

Definition goodState (st : State) : Prop :=
  goodTable (table st) ∧ goodTables (tables st).

(** ** Sample schemas *)

Module Samples.

Definition nl : string := String newline EmptyString.

Definition usersA : Table :=
  mkTable "users"
    (<["id" := mkColumn "id" "INT," ""]>
       {["name" := mkColumn "name" "VARCHAR(50)" "NOT NULL"]})
    (<["id" := mkIndex "idx_id" "id"]> {["name" := mkIndex "idx_name" "name"]})
    {["org_id" := {["FOREIGN" := mkConstraint "fk_x" "org_id" "FOREIGN"
                                   "REFERENCES orgs(id)"]}]}.

Definition usersB : Table :=
  mkTable "users"
    {["id" := mkColumn "id" "INT" "NOT NULL"]}
    {["id" := mkIndex "other_idx" "id"]}
    {["org_id" := {["FOREIGN" := mkConstraint "fk_x" "org_id" "FOREIGN"
                                   "REFERENCES other(id)"]}]}.

Definition ordersB : Table :=
  mkTable "orders" {["total" := mkColumn "total" "INT" ""]} ∅ ∅.

Definition schemaA : gmap string Table := {["users" := usersA]}.
Definition schemaB : gmap string Table := {["users" := usersB]}.

(** The text that parses to [schemaA]. *)
Definition textA : string :=
  "CREATE TABLE `users` (" +:+ nl +:+
  "  `id` INT," +:+ nl +:+
  "  `name` VARCHAR(50) NOT NULL," +:+ nl +:+
  "  KEY `idx_id` (`id`)," +:+ nl +:+
  "  KEY `idx_name` (`name`)," +:+ nl +:+
  "  CONSTRAINT `fk_x` FOREIGN KEY (`org_id`) REFERENCES orgs(id)" +:+ nl +:+
  ") ENGINE=InnoDB DEFAULT CHARSET=utf8;" +:+ nl.

(** Two table bodies that differ in what follows the type of [id]. *)
Definition textComma : string :=
  "CREATE TABLE `t` (" +:+ nl +:+
  "  `id` INT," +:+ nl +:+
  ") ENGINE=InnoDB DEFAULT CHARSET=utf8;".

Definition textNotNull : string :=
  "CREATE TABLE `t` (" +:+ nl +:+
  "  `id` INT NOT NULL," +:+ nl +:+
  ") ENGINE=InnoDB DEFAULT CHARSET=utf8;".

Definition tableComma : Table :=
  mkTable "t" {["id" := mkColumn "id" "INT," ""]} ∅ ∅.

Definition tableNotNull : Table :=
  mkTable "t" {["id" := mkColumn "id" "INT" "NOT NULL"]} ∅ ∅.

(** A table body with two constraint lines for the same column and kind. *)
Definition lineFkA : string :=
  "  CONSTRAINT `fk_a` FOREIGN KEY (`org_id`) REFERENCES `orgs` (`id`),".

Definition lineFkB : string :=
  "  CONSTRAINT `fk_b` FOREIGN KEY (`org_id`) REFERENCES `other` (`id`)".

Definition fkA : Constraint :=
  mkConstraint "fk_a" "org_id" "FOREIGN" "REFERENCES `orgs` (`id`)".

Definition fkB : Constraint :=
  mkConstraint "fk_b" "org_id" "FOREIGN" "REFERENCES `other` (`id`)".

Definition textTwice : string :=
  "CREATE TABLE `t` (" +:+ nl +:+ lineFkA +:+ nl +:+ lineFkB +:+ nl +:+
  ") ENGINE=InnoDB DEFAULT CHARSET=utf8;".

Definition tableTwice : Table :=
  mkTable "t" ∅ ∅ {["org_id" := {["FOREIGN" := fkB]}]}.

(** The parser's state after the header of [textTwice] and its first
    constraint line. *)
Definition stateAfterFkA : State :=
  mkState (mkTable "t" ∅ ∅ {["org_id" := {["FOREIGN" := fkA]}]}) ∅ true.

(** A table body closed by a lone parenthesis. *)
Definition textParen : string :=
  "CREATE TABLE t (" +:+ nl +:+ "  id INT" +:+ nl +:+ ");".

End Samples.

(** ** Further vocabulary *)

(** [B] has everything [A] has: each table of [A] by name, each of its
    columns with the same type and remainder, an index entry for each
    indexed column, each constraint with the same trailing clause. *)
Definition covers (A B : gmap string Table) : Prop :=
  ∀ k tableA, A !! k = Some tableA →
    ∃ tableB, B !! Name tableA = Some tableB
      ∧ (∀ kc columnA, Columns tableA !! kc = Some columnA →
           ∃ columnB, Columns tableB !! Column_Name columnA = Some columnB
             ∧ Column_Type columnA = Column_Type columnB
             ∧ Column_Other columnA = Column_Other columnB)
      ∧ (∀ ki indexA, Indexes tableA !! ki = Some indexA →
           is_Some (Indexes tableB !! Index_ColumnName indexA))
      ∧ (∀ columnNameA m constraintTypeA constraintA,
           Constraints tableA !! columnNameA = Some m →
           m !! constraintTypeA = Some constraintA →
           ∃ constraintB,
             lookupConstraint tableB columnNameA constraintTypeA = Some constraintB
             ∧ Constraint_Other constraintA = Constraint_Other constraintB).

(** The kinds that report an element [B] lacks, and those that report a
    difference. *)
Definition missingKinds : list string :=
  [MissingTable; MissingColumn; MissingIndex; MissingConstraint].

Definition wrongKinds : list string :=
  [WrongColumnType; WrongColumnOther; WrongConstraintOther].

(** The first tokens that select the index branch or one of the two
    constraint branches of the parser. *)
Definition isBranchKeyword (infos0 : string) : bool :=
  bool_decide (infos0 = "KEY") || bool_decide (infos0 = "CONSTRAINT")
  || bool_decide (infos0 = "PRIMARY") || bool_decide (infos0 = "UNIQUE").

(** The lines on which the parser indexes or slices past the last token,
    outside ([analyzing = false]) or inside a table body. *)
Definition tooShort (analyzing : bool) (infos : list string) : bool :=
  match infos with
  | [] => false
  | [infos0] =>
      bool_decide (infos0 = "CREATE")
      || (analyzing && (negb (isKeyword infos0) || isBranchKeyword infos0))
  | [infos0; infos1] =>
      negb (bool_decide (infos1 = "ENGINE=InnoDB"))
      && ((bool_decide (infos0 = "CREATE") && bool_decide (infos1 = "TABLE"))
          || (analyzing && isBranchKeyword infos0))
  | infos0 :: infos1 :: _ :: tl =>
      negb (bool_decide (infos1 = "ENGINE=InnoDB"))
      && analyzing && bool_decide (infos0 = "CONSTRAINT")
      && bool_decide (length tl < 2)%nat
  end.

(** A string of spaces only. *)
Fixpoint onlySpaces (s : string) : bool :=
  match s with
  | EmptyString => true
  | String c s' => bool_decide (c = " "%char) && onlySpaces s'
  end.

(** The number of lines of [data] that open a table. *)
Definition countHeaders (data : string) : nat :=
  length (filter (λ value, isHeaderLine value = true)
            (strings.Split data newline)).


(** [s] begins or ends with the byte [c]. *)
Definition wrapped (c : ascii) (s : string) : Prop :=
  (∃ s', s = String c s') ∨ (∃ s', s = s' +:+ String c EmptyString).

(** No name in table [t] begins or ends with a back quote, and no
    remainder or trailing clause with a comma. *)
Definition bareTable (t : Table) : Prop :=
  ¬ wrapped "`" (Name t)
  ∧ (∀ k column, Columns t !! k = Some column →
       ¬ wrapped "`" (Column_Name column) ∧ ¬ wrapped "," (Column_Other column))
  ∧ (∀ k index, Indexes t !! k = Some index →
       ¬ wrapped "`" (Index_Name index)
       ∧ ¬ wrapped "`" (Index_ColumnName index))
  ∧ (∀ columnName m constraintType c,
       Constraints t !! columnName = Some m → m !! constraintType = Some c →
       ¬ wrapped "`" (Constraint_Name c)
       ∧ ¬ wrapped "`" (Constraint_ColumnName c)
       ∧ ¬ wrapped "," (Constraint_Other c)).

(** ** main

    What [main] computes between reading the two files and printing:
    parse the first text, parse the second, compare, group. *)
Definition report (O : RangeOrder) (dataA dataB : string) : option (list Diff) :=
  tablesA ← parseTables dataA;
  tablesB ← parseTables dataB;
  let diffs := compareTables O tablesA tablesB in
  Some (groupByType diffs).

(** ** The earlier variant of the program

    The repository's second file holds an earlier version of the same
    program: it has no index and no constraint handling, its keyword list
    lacks [UNIQUE], and it prints the differences ungrouped.  [Column],
    [Index] and [Diff] are declared alike in both files. *)

Module Simple.

Record Constraint := mkConstraint {
  Constraint_Name : string;
  Constraint_Type : string;
  Constraint_Other : string
}.

Record Table := mkTable {
  Name : string;
  Columns : gmap string Column;
  Indexes : gmap string Index;
  Constraints : gmap string (list Constraint)
}.

Definition columnDiffs (tableA tableB : Table) (columnA : Column) : list Diff :=
  match Columns tableB !! Column_Name columnA with
  | None => [mkDiff MissingColumn (Name tableA) (Column_Name columnA) ""]
  | Some columnB =>
      (if decide (Column_Type columnA ≠ Column_Type columnB) then
         [mkDiff WrongColumnType (dotted (Name tableA) (Column_Name columnA))
            (Column_Type columnA) (Column_Type columnB)]
       else [])
      ++
      (if decide (Column_Other columnA ≠ Column_Other columnB) then
         [mkDiff WrongColumnOther (dotted (Name tableA) (Column_Name columnA))
            (Column_Other columnA) (Column_Other columnB)]
       else [])
  end.

Definition tableDiffs (O : RangeOrder) (tableMapB : gmap string Table)
    (tableA : Table) : list Diff :=
  match tableMapB !! Name tableA with
  | None => [mkDiff MissingTable (Name tableA) (Name tableA) ""]
  | Some tableB =>
      appendEach (columnDiffs tableA tableB) (range O (Columns tableA)).*2 []
  end.

Definition compareTables (O : RangeOrder) (tableMapA tableMapB : gmap string Table)
  : list Diff :=
  appendEach (tableDiffs O tableMapB) (range O tableMapA).*2 [].

Definition keywords : list string := ["PRIMARY"; "KEY"; "CONSTRAINT"].

Definition isKeyword (str : string) : bool :=
  existsb (λ v, bool_decide (str = v) || bool_decide (str = "")
                || bool_decide (str = "--")) keywords.

Record State := mkState {
  table : Table;
  tables : gmap string Table;
  analyzingTable : bool
}.

Definition zeroTable : Table := mkTable "" ∅ ∅ ∅.
Definition initState : State := mkState zeroTable ∅ false.

Definition setColumn (t : Table) (name : string) (column : Column) : Table :=
  mkTable (Name t) (<[name := column]> (Columns t)) (Indexes t) (Constraints t).

Definition parseLine (st : State) (value : string) : option State :=
  let value := strings.Trim value " " in
  let infos := strings.Split value " " in
  engine ← (if decide (1 < length infos)%nat
            then infos1 ← infos !! 1; Some (bool_decide (infos1 = "ENGINE=InnoDB"))
            else Some false);
  if engine : bool then Some st else
  infos0 ← infos !! 0;
  create ← (if decide (infos0 = "CREATE")
            then infos1 ← infos !! 1; Some (bool_decide (infos1 = "TABLE"))
            else Some false);
  if create : bool then
    let tables' := if analyzingTable st
                   then <[Name (table st) := table st]> (tables st)
                   else tables st in
    infos2 ← infos !! 2;
    let tableName := strings.Trim infos2 "`" in
    Some (mkState (mkTable tableName ∅ ∅ ∅) tables' true)
  else if analyzingTable st && negb (isKeyword infos0) then
    rest ← sliceFrom infos 2;
    let other := strings.Trim (strings.Join rest " ") "," in
    let name := strings.Trim infos0 "`" in
    infos1 ← infos !! 1;
    Some (mkState (setColumn (table st) name (mkColumn name infos1 other))
            (tables st) (analyzingTable st))
  else Some st.

Fixpoint parseLines (st : State) (res : list string) : option State :=
  match res with
  | [] => Some st
  | value :: res' => st' ← parseLine st value; parseLines st' res'
  end.

Definition parseTables (data : string) : option (gmap string Table) :=
  st ← parseLines initState (strings.Split data newline);
  Some (<[Name (table st) := table st]> (tables st)).

(** What [main] computes between reading and printing: no grouping. *)
Definition report (O : RangeOrder) (dataA dataB : string) : option (list Diff) :=
  tablesA ← parseTables dataA;
  tablesB ← parseTables dataB;
  Some (compareTables O tablesA tablesB).

End Simple.

(** A table of the later program as the earlier one would hold it: the
    name and the columns. *)
Definition simplify (t : Table) : Simple.Table :=
  Simple.mkTable (Name t) (Columns t) ∅ ∅.

Definition simplifyState (st : State) : Simple.State :=
  Simple.mkState (simplify (table st)) (simplify <$> tables st)
    (analyzingTable st).

(** The kinds that the earlier program knows. *)
Definition columnKinds : list string :=
  [MissingTable; MissingColumn; WrongColumnType; WrongColumnOther].

Definition isColumnKind (d : Diff) : Prop := Diff_Type d ∈ columnKinds.

(** * Properties *)

(** ** Loops that append *)

Lemma appendEach_bind {X : Type} (body : X → list Diff) (xs : list X)
    (diffs : list Diff) :
  appendEach body xs diffs = diffs ++ (xs ≫= body).
Proof.
  unfold appendEach. revert diffs.
  induction xs as [|x xs IH]; intros diffs; simpl.
  - by rewrite app_nil_r.
  - by rewrite IH, <- app_assoc.
Qed.

Lemma appendEach_nil {X : Type} (body : X → list Diff) (xs : list X) :
  (∀ x, x ∈ xs → body x = []) → appendEach body xs [] = [].
Proof.
  intros Hnil. rewrite appendEach_bind, app_nil_l.
  induction xs as [|x xs IH]; [done|].
  rewrite bind_cons, Hnil, IH; [done| |left].
  intros y Hy. apply Hnil. by right.
Qed.

(** ** What a [range] loop visits *)

Section ranges.
Context (O : RangeOrder).

Lemma elem_of_range {V : Type} (m : gmap string V) (k : string) (v : V) :
  (k, v) ∈ range O m ↔ m !! k = Some v.
Proof. by rewrite (range_perm O), elem_of_map_to_list. Qed.

Lemma elem_of_range_values {V : Type} (m : gmap string V) (v : V) :
  v ∈ (range O m).*2 ↔ ∃ k, m !! k = Some v.
Proof.
  rewrite list_elem_of_fmap. split.
  - intros ([k v'] & -> & Hin). exists k. by apply elem_of_range.
  - intros (k & Hk). exists (k, v). split; [done|]. by apply elem_of_range.
Qed.
End ranges.

(** ** Grouping *)

Lemma ofType_snoc (k : string) (ds : list Diff) (d : Diff) :
  ofType k (ds ++ [d]) = ofType k ds ++ (if decide (Diff_Type d = k) then [d] else []).
Proof.
  unfold ofType. by rewrite filter_app.
Qed.


Ltac distinct_kinds :=
  unfold MissingTable, MissingColumn, WrongColumnType, WrongColumnOther,
    MissingIndex, MissingConstraint, WrongConstraintOther in *;
  congruence.

Lemma buckets_ofType (ds : list Diff) :
  foldl bucketStep emptyBuckets ds =
  mkBuckets (ofType MissingTable ds) (ofType MissingColumn ds)
    (ofType WrongColumnType ds) (ofType WrongColumnOther ds)
    (ofType MissingIndex ds) (ofType MissingConstraint ds)
    (ofType WrongConstraintOther ds).
Proof.
  induction ds as [|d ds IH] using rev_ind; [done|].
  rewrite foldl_snoc, IH, !ofType_snoc. unfold bucketStep; simpl.
  repeat case_decide; rewrite ?app_nil_r; first [done | distinct_kinds].
Qed.

Lemma groupByType_ofType (ds : list Diff) :
  groupByType ds =
  ofType MissingTable ds ++ ofType MissingColumn ds ++
  ofType WrongColumnType ds ++ ofType WrongColumnOther ds ++
  ofType MissingConstraint ds ++ ofType WrongConstraintOther ds ++
  ofType MissingIndex ds.
Proof.
  unfold groupByType. rewrite buckets_ofType. simpl.
  by rewrite <- !app_assoc.
Qed.

Lemma groupByType_perm (ds : list Diff) :
  Forall knownType ds → groupByType ds ≡ₚ ds.
Proof.
  rewrite groupByType_ofType. unfold ofType.
  induction 1 as [|d ds Hd _ IH]; [done|].
  rewrite !filter_cons.
  unfold knownType, kindOrder in Hd.
  rewrite !elem_of_cons, elem_of_nil in Hd.
  repeat case_decide;
    try distinct_kinds; try (exfalso; tauto);
    rewrite <- IH at 8; solve_Permutation.
Qed.

(** ** The diff engine, one loop at a time *)

Section engine.
Context (O : RangeOrder).

Lemma knownType_columnDiffs tableA tableB columnA :
  Forall knownType (columnDiffs tableA tableB columnA).
Proof.
  unfold columnDiffs, knownType, kindOrder.
  destruct (Columns tableB !! _); repeat case_decide;
    repeat constructor; set_solver.
Qed.

Lemma knownType_indexDiffs tableA tableB indexA :
  Forall knownType (indexDiffs tableA tableB indexA).
Proof.
  unfold indexDiffs, knownType, kindOrder.
  destruct (Indexes tableB !! _); repeat constructor; set_solver.
Qed.

Lemma knownType_constraintDiffs tableA tableB columnNameA entry :
  Forall knownType (constraintDiffs tableA tableB columnNameA entry).
Proof.
  unfold constraintDiffs, knownType, kindOrder. destruct entry as [ty c].
  destruct (lookupConstraint _ _ _); repeat case_decide;
    repeat constructor; set_solver.
Qed.

Lemma knownType_appendEach {X : Type} (body : X → list Diff) (xs : list X)
    (diffs : list Diff) :
  Forall knownType diffs → (∀ x, Forall knownType (body x)) →
  Forall knownType (appendEach body xs diffs).
Proof.
  intros Hd Hbody. rewrite appendEach_bind. apply Forall_app. split; [done|].
  induction xs as [|x xs IH]; [constructor|].
  rewrite bind_cons. apply Forall_app. auto.
Qed.

Lemma knownType_tableDiffs tableMapB tableA :
  Forall knownType (tableDiffs O tableMapB tableA).
Proof.
  unfold tableDiffs. destruct (tableMapB !! _) as [tableB|].
  - apply knownType_appendEach; [apply knownType_appendEach|].
    + apply knownType_appendEach; [constructor|].
      apply knownType_columnDiffs.
    + apply knownType_indexDiffs.
    + intros [col m]. apply knownType_appendEach; [constructor|].
      apply knownType_constraintDiffs.
  - repeat constructor.
Qed.

Lemma knownType_compareTables A B : Forall knownType (compareTables O A B).
Proof.
  apply knownType_appendEach; [constructor|]. apply knownType_tableDiffs.
Qed.
End engine.

Section engine_sets.
Context (O : RangeOrder).

Lemma columnConstraintDiffs_bind tableA tableB columnNameA m :
  columnConstraintDiffs O tableA tableB (columnNameA, m)
  = range O m ≫= constraintDiffs tableA tableB columnNameA.
Proof. unfold columnConstraintDiffs. by rewrite appendEach_bind. Qed.

Lemma tableDiffs_found tableMapB tableA tableB :
  tableMapB !! Name tableA = Some tableB →
  tableDiffs O tableMapB tableA
  = ((range O (Columns tableA)).*2 ≫= columnDiffs tableA tableB)
    ++ ((range O (Indexes tableA)).*2 ≫= indexDiffs tableA tableB)
    ++ (range O (Constraints tableA) ≫= columnConstraintDiffs O tableA tableB).
Proof.
  intros HB. unfold tableDiffs. rewrite HB, !appendEach_bind.
  by rewrite app_nil_l, <- app_assoc.
Qed.

Lemma tableDiffs_missing tableMapB tableA :
  tableMapB !! Name tableA = None →
  tableDiffs O tableMapB tableA
  = [mkDiff MissingTable (Name tableA) (Name tableA) ""].
Proof. intros HB. unfold tableDiffs. by rewrite HB. Qed.

Lemma compareTables_bind A B :
  compareTables O A B = (range O A).*2 ≫= tableDiffs O B.
Proof. unfold compareTables. by rewrite appendEach_bind. Qed.

Lemma elem_of_columnDiffs tableA tableB columnA d :
  d ∈ columnDiffs tableA tableB columnA ↔
  (Columns tableB !! Column_Name columnA = None
   ∧ d = mkDiff MissingColumn (Name tableA) (Column_Name columnA) "")
  ∨ (∃ columnB, Columns tableB !! Column_Name columnA = Some columnB
     ∧ ((Column_Type columnA ≠ Column_Type columnB
         ∧ d = mkDiff WrongColumnType
                 (dotted (Name tableA) (Column_Name columnA))
                 (Column_Type columnA) (Column_Type columnB))
        ∨ (Column_Other columnA ≠ Column_Other columnB
           ∧ d = mkDiff WrongColumnOther
                   (dotted (Name tableA) (Column_Name columnA))
                   (Column_Other columnA) (Column_Other columnB)))).
Proof.
  unfold columnDiffs. destruct (Columns tableB !! _) as [columnB|].
  - rewrite elem_of_app. split.
    + intros [Hd|Hd]; case_decide; try (by apply elem_of_nil in Hd);
        apply list_elem_of_singleton in Hd; subst d; right; exists columnB;
        eauto.
    + intros [[? _]|(cB & [= <-] & [[? ->]|[? ->]])]; [done|left|right];
        rewrite decide_True by done; apply list_elem_of_singleton; done.
  - rewrite list_elem_of_singleton. split; [tauto|].
    intros [[_ ?]|(? & ? & _)]; done.
Qed.

Lemma elem_of_indexDiffs tableA tableB indexA d :
  d ∈ indexDiffs tableA tableB indexA ↔
  Indexes tableB !! Index_ColumnName indexA = None
  ∧ d = mkDiff MissingIndex (dotted (Name tableA) (Index_ColumnName indexA))
          (Index_Name indexA) "".
Proof.
  unfold indexDiffs. destruct (Indexes tableB !! _).
  - rewrite elem_of_nil. split; [done|]. by intros [? _].
  - rewrite list_elem_of_singleton. tauto.
Qed.

Lemma elem_of_constraintDiffs tableA tableB columnNameA constraintTypeA
    constraintA d :
  d ∈ constraintDiffs tableA tableB columnNameA (constraintTypeA, constraintA) ↔
  (lookupConstraint tableB columnNameA constraintTypeA = None
   ∧ d = mkDiff MissingConstraint (dotted (Name tableA) columnNameA)
           (Constraint_Type constraintA) "")
  ∨ (∃ constraintB,
       lookupConstraint tableB columnNameA constraintTypeA = Some constraintB
       ∧ Constraint_Other constraintA ≠ Constraint_Other constraintB
       ∧ d = mkDiff WrongConstraintOther
               (dotted (dotted (Name tableA) columnNameA)
                  (Constraint_Type constraintA))
               (Constraint_Other constraintA) (Constraint_Other constraintB)).
Proof.
  unfold constraintDiffs.
  destruct (lookupConstraint _ _ _) as [constraintB|].
  - case_decide; rewrite ?list_elem_of_singleton, ?elem_of_nil; split.
    + intros ->. right. eauto.
    + intros [[? _]|(cB & ? & ? & ?)]; by simplify_eq.
    + done.
    + intros [[? _]|(cB & ? & ? & ?)]; by simplify_eq.
  - rewrite list_elem_of_singleton. split; [tauto|].
    intros [[_ ?]|(? & ? & _)]; done.
Qed.

Lemma compareTables_emitted A B d :
  d ∈ compareTables O A B ↔ emitted A B d.
Proof.
  rewrite compareTables_bind, list_elem_of_bind. split.
  - intros (tableA & Hd & (k & HA)%elem_of_range_values).
    destruct (B !! Name tableA) as [tableB|] eqn:HB.
    + rewrite (tableDiffs_found _ _ _ HB), !elem_of_app, !list_elem_of_bind in Hd.
      destruct Hd as [(columnA & Hd & (kc & Hc)%elem_of_range_values)
                     |[(indexA & Hd & (ki & Hi)%elem_of_range_values)
                      |([col m] & Hd & Hm%elem_of_range)]].
      * apply elem_of_columnDiffs in Hd
          as [[? ->]|(columnB & ? & [[? ->]|[? ->]])]; econstructor; eauto.
      * apply elem_of_indexDiffs in Hd as [? ->]. econstructor; eauto.
      * rewrite columnConstraintDiffs_bind, list_elem_of_bind in Hd.
        destruct Hd as ([ty c] & Hd & Hc%elem_of_range).
        apply elem_of_constraintDiffs in Hd
          as [[? ->]|(constraintB & ? & ? & ->)]; econstructor; eauto.
    + rewrite (tableDiffs_missing _ _ HB), list_elem_of_singleton in Hd.
      subst d. econstructor; eauto.
  - intros Hd.
    destruct Hd as [k tableA HA HB | k tableA tableB kc columnA HA HB Hc Hn
      | k tableA tableB kc columnA columnB HA HB Hc Hs Hne
      | k tableA tableB kc columnA columnB HA HB Hc Hs Hne
      | k tableA tableB ki indexA HA HB Hi Hn
      | k tableA tableB col m ty c HA HB Hm Hc Hn
      | k tableA tableB col m ty c cB HA HB Hm Hc Hs Hne];
      exists tableA; (split; [|apply elem_of_range_values; eauto]).
    + rewrite (tableDiffs_missing _ _ HB). by left.
    + rewrite (tableDiffs_found _ _ _ HB), !elem_of_app, !list_elem_of_bind.
      left. exists columnA. split; [|apply elem_of_range_values; eauto].
      apply elem_of_columnDiffs. eauto.
    + rewrite (tableDiffs_found _ _ _ HB), !elem_of_app, !list_elem_of_bind.
      left. exists columnA. split; [|apply elem_of_range_values; eauto].
      apply elem_of_columnDiffs. eauto 10.
    + rewrite (tableDiffs_found _ _ _ HB), !elem_of_app, !list_elem_of_bind.
      left. exists columnA. split; [|apply elem_of_range_values; eauto].
      apply elem_of_columnDiffs. eauto 10.
    + rewrite (tableDiffs_found _ _ _ HB), !elem_of_app, !list_elem_of_bind.
      right; left. exists indexA. split; [|apply elem_of_range_values; eauto].
      apply elem_of_indexDiffs. eauto.
    + rewrite (tableDiffs_found _ _ _ HB), !elem_of_app, !list_elem_of_bind.
      right; right. exists (col, m). split; [|by apply elem_of_range].
      rewrite columnConstraintDiffs_bind, list_elem_of_bind.
      exists (ty, c). split; [|by apply elem_of_range].
      apply elem_of_constraintDiffs. eauto.
    + rewrite (tableDiffs_found _ _ _ HB), !elem_of_app, !list_elem_of_bind.
      right; right. exists (col, m). split; [|by apply elem_of_range].
      rewrite columnConstraintDiffs_bind, list_elem_of_bind.
      exists (ty, c). split; [|by apply elem_of_range].
      apply elem_of_constraintDiffs. eauto 10.
Qed.
End engine_sets.

Lemma bind_ext_in {X Y : Type} (f g : X → list Y) (xs : list X) :
  (∀ x, x ∈ xs → f x = g x) → xs ≫= f = xs ≫= g.
Proof.
  intros Hfg. induction xs as [|x xs IH]; [done|].
  rewrite !bind_cons, Hfg, IH; [done| |left].
  intros y Hy. apply Hfg. by right.
Qed.

Lemma lookupConstraint_setConstraint t columnName constraintType c col kind :
  lookupConstraint (setConstraint t columnName constraintType c) col kind
  = if decide (col = columnName ∧ kind = constraintType) then Some c
    else lookupConstraint t col kind.
Proof.
  unfold lookupConstraint, setConstraint; simpl.
  destruct (decide (col = columnName)) as [->|Hcol].
  - rewrite lookup_insert_eq; simpl.
    destruct (decide (kind = constraintType)) as [->|Hkind].
    + rewrite lookup_insert_eq. by rewrite decide_True.
    + rewrite lookup_insert_ne by done. rewrite decide_False by tauto. done.
  - rewrite lookup_insert_ne by done. rewrite decide_False by tauto. done.
Qed.

Section directional.
Context (O : RangeOrder).

Lemma compareTables_sameAnswers A B B' :
  sameAnswers A B B' → compareTables O A B = compareTables O A B'.
Proof.
  intros Hsame. rewrite !compareTables_bind. apply bind_ext_in.
  intros tableA (k & HA)%elem_of_range_values.
  specialize (Hsame k tableA HA).
  destruct (B !! Name tableA) as [tableB|] eqn:HB,
           (B' !! Name tableA) as [tableB'|] eqn:HB'; try done.
  - destruct Hsame as (Hcol & Hidx & Hcon).
    rewrite (tableDiffs_found _ _ _ _ HB), (tableDiffs_found _ _ _ _ HB').
    f_equal; [|f_equal]; apply bind_ext_in.
    + intros columnA (kc & Hc)%elem_of_range_values.
      unfold columnDiffs. by rewrite (Hcol kc columnA Hc).
    + intros indexA (ki & Hi)%elem_of_range_values.
      unfold indexDiffs. by rewrite (Hidx ki indexA Hi).
    + intros [col m] Hm%elem_of_range.
      rewrite !columnConstraintDiffs_bind. apply bind_ext_in.
      intros [ty c] Hc%elem_of_range.
      unfold constraintDiffs. by rewrite (Hcon col m ty c Hm Hc).
  - by rewrite (tableDiffs_missing _ _ _ HB), (tableDiffs_missing _ _ _ HB').
Qed.

Lemma sameAnswers_refl (A B : gmap string Table) : sameAnswers A B B.
Proof. intros k tableA _. by destruct (B !! Name tableA). Qed.

Lemma extraTable_sameAnswers A B n t :
  (∀ tableA, ¬ tableNamed A n tableA) → sameAnswers A B (<[n := t]> B).
Proof.
  intros Hfresh k tableA HA.
  assert (n ≠ Name tableA) as Hne.
  { intros ->. apply (Hfresh tableA). by exists k. }
  rewrite lookup_insert_ne by done. by apply (sameAnswers_refl A B k).
Qed.

Lemma extraColumn_sameAnswers A B n tableB c column :
  B !! n = Some tableB →
  (∀ tableA kc columnA, tableNamed A n tableA →
     Columns tableA !! kc = Some columnA → Column_Name columnA ≠ c) →
  sameAnswers A B (<[n := setColumn tableB c column]> B).
Proof.
  intros HB Hfresh k tableA HA.
  destruct (decide (n = Name tableA)) as [->|Hne].
  - rewrite lookup_insert_eq, HB. split_and!; [|done..].
    intros kc columnA Hc. simpl. rewrite lookup_insert_ne; [done|].
    intros Heq. eapply Hfresh; [by exists k|done..].
  - rewrite lookup_insert_ne by done. by apply (sameAnswers_refl A B k).
Qed.

Lemma extraIndex_sameAnswers A B n tableB c index :
  B !! n = Some tableB →
  (∀ tableA ki indexA, tableNamed A n tableA →
     Indexes tableA !! ki = Some indexA → Index_ColumnName indexA ≠ c) →
  sameAnswers A B (<[n := setIndex tableB c index]> B).
Proof.
  intros HB Hfresh k tableA HA.
  destruct (decide (n = Name tableA)) as [->|Hne].
  - rewrite lookup_insert_eq, HB. split_and!; [done| |done].
    intros ki indexA Hi. simpl. rewrite lookup_insert_ne; [done|].
    intros Heq. eapply Hfresh; [by exists k|done..].
  - rewrite lookup_insert_ne by done. by apply (sameAnswers_refl A B k).
Qed.

Lemma extraConstraint_sameAnswers A B n tableB c kind constraint :
  B !! n = Some tableB →
  (∀ tableA m, tableNamed A n tableA →
     Constraints tableA !! c = Some m → m !! kind = None) →
  sameAnswers A B (<[n := setConstraint tableB c kind constraint]> B).
Proof.
  intros HB Hfresh k tableA HA.
  destruct (decide (n = Name tableA)) as [->|Hne].
  - rewrite lookup_insert_eq, HB. split_and!; [done..|].
    intros col m ty cA Hm Hc. rewrite lookupConstraint_setConstraint.
    rewrite decide_False; [done|]. intros [-> ->].
    rewrite (Hfresh tableA m) in Hc; [done|by exists k|done].
  - rewrite lookup_insert_ne by done. by apply (sameAnswers_refl A B k).
Qed.
End directional.

(** C1. The diff engine is directional.  Every record of
    [compareTables A B] is emitted for an element of [A] (a table, a column,
    an index or a constraint of [A]), and an element that only [B] has
    produces nothing: adding to [B] a table whose name no table of [A]
    bears, or to a table of [B] a column, an index or a constraint that the
    like-named tables of [A] lack, leaves the output as it was. *)
Theorem compareTables_directional (O : RangeOrder) (A B : gmap string Table) :
  (∀ d, d ∈ compareTables O A B → emitted A B d)
  ∧ (∀ n t,
       (∀ tableA, ¬ tableNamed A n tableA) →
       compareTables O A (<[n := t]> B) = compareTables O A B)
  ∧ (∀ n tableB c column,
       B !! n = Some tableB →
       (∀ tableA kc columnA, tableNamed A n tableA →
          Columns tableA !! kc = Some columnA → Column_Name columnA ≠ c) →
       compareTables O A (<[n := setColumn tableB c column]> B)
       = compareTables O A B)
  ∧ (∀ n tableB c index,
       B !! n = Some tableB →
       (∀ tableA ki indexA, tableNamed A n tableA →
          Indexes tableA !! ki = Some indexA → Index_ColumnName indexA ≠ c) →
       compareTables O A (<[n := setIndex tableB c index]> B)
       = compareTables O A B)
  ∧ (∀ n tableB c kind constraint,
       B !! n = Some tableB →
       (∀ tableA m, tableNamed A n tableA →
          Constraints tableA !! c = Some m → m !! kind = None) →
       compareTables O A (<[n := setConstraint tableB c kind constraint]> B)
       = compareTables O A B).
Proof.
  split_and!.
  - intros d. apply compareTables_emitted.
  - intros. symmetry. by apply compareTables_sameAnswers, extraTable_sameAnswers.
  - intros. symmetry. by apply compareTables_sameAnswers, extraColumn_sameAnswers.
  - intros. symmetry. by apply compareTables_sameAnswers, extraIndex_sameAnswers.
  - intros. symmetry.
    by apply compareTables_sameAnswers, extraConstraint_sameAnswers.
Qed.

(** C2. Comparing a schema with itself yields no record. *)
Theorem compareTables_self (O : RangeOrder) (A : gmap string Table) :
  wfSchema A → compareTables O A A = [].
Proof.
  intros Hwf. apply appendEach_nil.
  intros tableA (k & HA)%elem_of_range_values.
  destruct (Hwf k tableA HA) as (Hname & Hcols & Hidx).
  unfold tableDiffs. rewrite Hname, HA.
  rewrite (appendEach_nil (columnDiffs _ _)).
  2: { intros columnA (kc & Hc)%elem_of_range_values.
       unfold columnDiffs. rewrite (Hcols kc columnA Hc), Hc.
       by rewrite !decide_False by (by intros ?). }
  rewrite (appendEach_nil (indexDiffs _ _)).
  2: { intros indexA (ki & Hi)%elem_of_range_values.
       unfold indexDiffs. by rewrite (Hidx ki indexA Hi), Hi. }
  apply appendEach_nil.
  intros [col m] Hm%elem_of_range. unfold columnConstraintDiffs.
  apply appendEach_nil. intros [ty c] Hc%elem_of_range.
  unfold constraintDiffs, lookupConstraint. rewrite Hm. simpl. rewrite Hc.
  by rewrite decide_False by (by intros ?).
Qed.

(** C3. On the output of [compareTables], [groupByType] is the
    concatenation of the seven kinds' records in the fixed priority order,
    each kind in its order of emission, and is a permutation of its input:
    nothing is lost or duplicated. *)
Theorem groupByType_compareTables (O : RangeOrder) (A B : gmap string Table) :
  let ds := compareTables O A B in
  groupByType ds
  = ofType MissingTable ds ++ ofType MissingColumn ds
    ++ ofType WrongColumnType ds ++ ofType WrongColumnOther ds
    ++ ofType MissingConstraint ds ++ ofType WrongConstraintOther ds
    ++ ofType MissingIndex ds
  ∧ groupByType ds ≡ₚ ds.
Proof.
  intros ds. split.
  - apply groupByType_ofType.
  - apply groupByType_perm, knownType_compareTables.
Qed.

(** ** One element's turn within the output *)

Lemma bind_split {X Y : Type} (f : X → list Y) (xs : list X) (x : X) :
  x ∈ xs → ∃ pre post, xs ≫= f = pre ++ f x ++ post.
Proof.
  intros (l1 & l2 & ->)%list_elem_of_split.
  rewrite bind_app, bind_cons. eauto.
Qed.

Section turns.
Context (O : RangeOrder) (A B : gmap string Table).
Context (k : string) (tableA tableB : Table).
Context (HA : A !! k = Some tableA) (HB : B !! Name tableA = Some tableB).

Lemma tableDiffs_turn :
  ∃ pre post, compareTables O A B = pre ++ tableDiffs O B tableA ++ post.
Proof.
  rewrite compareTables_bind. apply bind_split, elem_of_range_values. eauto.
Qed.

Lemma columnDiffs_turn kc columnA :
  Columns tableA !! kc = Some columnA →
  ∃ pre post, compareTables O A B = pre ++ columnDiffs tableA tableB columnA ++ post.
Proof.
  intros Hc. destruct tableDiffs_turn as (pre & post & ->).
  rewrite (tableDiffs_found _ _ _ _ HB).
  destruct (bind_split (columnDiffs tableA tableB)
              (range O (Columns tableA)).*2 columnA) as (l1 & l2 & ->).
  { apply elem_of_range_values. eauto. }
  exists (pre ++ l1),
    (l2 ++ (((range O (Indexes tableA)).*2 ≫= indexDiffs tableA tableB)
            ++ (range O (Constraints tableA)
                  ≫= columnConstraintDiffs O tableA tableB)) ++ post).
  by rewrite <- !app_assoc.
Qed.

Lemma indexDiffs_turn ki indexA :
  Indexes tableA !! ki = Some indexA →
  ∃ pre post, compareTables O A B = pre ++ indexDiffs tableA tableB indexA ++ post.
Proof.
  intros Hi. destruct tableDiffs_turn as (pre & post & ->).
  rewrite (tableDiffs_found _ _ _ _ HB).
  destruct (bind_split (indexDiffs tableA tableB)
              (range O (Indexes tableA)).*2 indexA) as (l1 & l2 & ->).
  { apply elem_of_range_values. eauto. }
  exists (pre ++ ((range O (Columns tableA)).*2 ≫= columnDiffs tableA tableB)
            ++ l1),
    (l2 ++ (range O (Constraints tableA)
              ≫= columnConstraintDiffs O tableA tableB) ++ post).
  by rewrite <- !app_assoc.
Qed.
End turns.

(** C5. The type check and the other check of a column are independent:
    a column of [A] that [B]'s table also has, with a different type and a
    different remainder, contributes exactly two records to the output,
    a WRONG_COLUMN_TYPE and then a WRONG_COLUMN_OTHER, both on target
    [table.column]. *)
Theorem column_type_other_independent (O : RangeOrder) (A B : gmap string Table)
    (k kc : string) (tableA tableB : Table) (columnA columnB : Column) :
  A !! k = Some tableA →
  B !! Name tableA = Some tableB →
  Columns tableA !! kc = Some columnA →
  Columns tableB !! Column_Name columnA = Some columnB →
  Column_Type columnA ≠ Column_Type columnB →
  Column_Other columnA ≠ Column_Other columnB →
  let target := dotted (Name tableA) (Column_Name columnA) in
  let records :=
    [ mkDiff WrongColumnType target (Column_Type columnA) (Column_Type columnB);
      mkDiff WrongColumnOther target (Column_Other columnA) (Column_Other columnB) ] in
  columnDiffs tableA tableB columnA = records
  ∧ ∃ pre post, compareTables O A B = pre ++ records ++ post.
Proof.
  intros HA HB Hc Hs Hty Hot target records.
  assert (columnDiffs tableA tableB columnA = records) as Hturn.
  { unfold columnDiffs. rewrite Hs. by rewrite !decide_True. }
  split; [done|]. rewrite <- Hturn. by eapply columnDiffs_turn.
Qed.

(** C6. A column of [A] that [B]'s table lacks contributes exactly one
    record, a MISSING_COLUMN whose target is the table name alone, whose
    A field is the column name and whose B field is empty; no type or other
    record is made for it. *)
Theorem missing_column_record (O : RangeOrder) (A B : gmap string Table)
    (k kc : string) (tableA tableB : Table) (columnA : Column) :
  A !! k = Some tableA →
  B !! Name tableA = Some tableB →
  Columns tableA !! kc = Some columnA →
  Columns tableB !! Column_Name columnA = None →
  let record := mkDiff MissingColumn (Name tableA) (Column_Name columnA) "" in
  columnDiffs tableA tableB columnA = [record]
  ∧ ∃ pre post, compareTables O A B = pre ++ [record] ++ post.
Proof.
  intros HA HB Hc Hs record.
  assert (columnDiffs tableA tableB columnA = [record]) as Hturn.
  { unfold columnDiffs. by rewrite Hs. }
  split; [done|]. rewrite <- Hturn. by eapply columnDiffs_turn.
Qed.

(** C7. An index of [A] on a column for which [B]'s table has no index
    entry contributes one MISSING_INDEX record with target [table.column],
    the index name as A and an empty B; when [B]'s table has an entry for
    the column the index contributes nothing, whatever the entry's name. *)
Theorem index_presence_only (O : RangeOrder) (A B : gmap string Table)
    (k ki : string) (tableA tableB : Table) (indexA : Index) :
  A !! k = Some tableA →
  B !! Name tableA = Some tableB →
  Indexes tableA !! ki = Some indexA →
  let record := mkDiff MissingIndex
                  (dotted (Name tableA) (Index_ColumnName indexA))
                  (Index_Name indexA) "" in
  (Indexes tableB !! Index_ColumnName indexA = None →
     indexDiffs tableA tableB indexA = [record]
     ∧ ∃ pre post, compareTables O A B = pre ++ [record] ++ post)
  ∧ (∀ indexB, Indexes tableB !! Index_ColumnName indexA = Some indexB →
       indexDiffs tableA tableB indexA = []).
Proof.
  intros HA HB Hi record. split.
  - intros Hs.
    assert (indexDiffs tableA tableB indexA = [record]) as Hturn.
    { unfold indexDiffs. by rewrite Hs. }
    split; [done|]. rewrite <- Hturn. by eapply indexDiffs_turn.
  - intros indexB Hs. unfold indexDiffs. by rewrite Hs.
Qed.

(** ** The theorems at the sample schemas *)

Section sample_facts.
Import Samples.

Lemma schemaA_tables k t : schemaA !! k = Some t → k = "users" ∧ t = usersA.
Proof. unfold schemaA. intros [<- <-]%lookup_singleton_Some. done. Qed.

Lemma usersA_columns k c :
  Columns usersA !! k = Some c → Column_Name c = k ∧ (k = "id" ∨ k = "name").
Proof.
  unfold usersA; simpl.
  intros [[<- <-]|[_ [<- <-]%lookup_singleton_Some]]%lookup_insert_Some; auto.
Qed.

Lemma usersA_indexes k i :
  Indexes usersA !! k = Some i → Index_ColumnName i = k ∧ (k = "id" ∨ k = "name").
Proof.
  unfold usersA; simpl.
  intros [[<- <-]|[_ [<- <-]%lookup_singleton_Some]]%lookup_insert_Some; auto.
Qed.

Lemma schemaA_wf : wfSchema schemaA.
Proof.
  intros k t [-> ->]%schemaA_tables. split; [done|]. split.
  - intros kc c Hc. by apply usersA_columns in Hc as [? _].
  - intros ki i Hi. by apply usersA_indexes in Hi as [? _].
Qed.
End sample_facts.

Lemma compareTables_directional_witness :
  let A := Samples.schemaA in
  let B := Samples.schemaB in
  compareTables defaultOrder A (<["orders" := Samples.ordersB]> B)
  = compareTables defaultOrder A B
  ∧ compareTables defaultOrder A
      (<["users" := setColumn Samples.usersB "email"
                      (mkColumn "email" "TEXT" "")]> B)
    = compareTables defaultOrder A B
  ∧ compareTables defaultOrder A
      (<["users" := setIndex Samples.usersB "email"
                      (mkIndex "idx_email" "email")]> B)
    = compareTables defaultOrder A B
  ∧ compareTables defaultOrder A
      (<["users" := setConstraint Samples.usersB "id" "PRIMARY"
                      (mkConstraint "id" "id" "PRIMARY" "")]> B)
    = compareTables defaultOrder A B.
Proof.
  intros A B.
  destruct (compareTables_directional defaultOrder A B)
    as (_ & Htable & Hcolumn & Hindex & Hconstraint).
  split_and!.
  - apply Htable. intros t (k & [-> ->]%schemaA_tables & Hn). discriminate Hn.
  - apply Hcolumn; [reflexivity|].
    intros t kc c (k & [-> ->]%schemaA_tables & _) Hc.
    apply usersA_columns in Hc as [-> [-> | ->]]; discriminate.
  - apply Hindex; [reflexivity|].
    intros t ki i (k & [-> ->]%schemaA_tables & _) Hi.
    apply usersA_indexes in Hi as [-> [-> | ->]]; discriminate.
  - apply Hconstraint; [reflexivity|].
    intros t m (k & [-> ->]%schemaA_tables & _) Hm. discriminate Hm.
Defined.

Lemma compareTables_self_witness :
  wfSchema Samples.schemaA
  ∧ compareTables defaultOrder Samples.schemaA Samples.schemaA = [].
Proof.
  split; [exact schemaA_wf|].
  apply (compareTables_self defaultOrder Samples.schemaA). exact schemaA_wf.
Defined.

Lemma column_type_other_independent_witness :
  columnDiffs Samples.usersA Samples.usersB (mkColumn "id" "INT," "")
  = [ mkDiff WrongColumnType "users.id" "INT," "INT";
      mkDiff WrongColumnOther "users.id" "" "NOT NULL" ]
  ∧ ∃ pre post,
      compareTables defaultOrder Samples.schemaA Samples.schemaB
      = pre ++ [ mkDiff WrongColumnType "users.id" "INT," "INT";
                 mkDiff WrongColumnOther "users.id" "" "NOT NULL" ] ++ post.
Proof.
  apply (column_type_other_independent defaultOrder Samples.schemaA
           Samples.schemaB "users" "id" Samples.usersA Samples.usersB
           (mkColumn "id" "INT," "") (mkColumn "id" "INT" "NOT NULL"));
    first [reflexivity | discriminate].
Defined.

Lemma missing_column_record_witness :
  columnDiffs Samples.usersA Samples.usersB
    (mkColumn "name" "VARCHAR(50)" "NOT NULL")
  = [mkDiff MissingColumn "users" "name" ""]
  ∧ ∃ pre post,
      compareTables defaultOrder Samples.schemaA Samples.schemaB
      = pre ++ [mkDiff MissingColumn "users" "name" ""] ++ post.
Proof.
  apply (missing_column_record defaultOrder Samples.schemaA Samples.schemaB
           "users" "name" Samples.usersA Samples.usersB
           (mkColumn "name" "VARCHAR(50)" "NOT NULL"));
    reflexivity.
Defined.

Lemma index_presence_only_witness :
  (indexDiffs Samples.usersA Samples.usersB (mkIndex "idx_name" "name")
   = [mkDiff MissingIndex "users.name" "idx_name" ""]
   ∧ ∃ pre post,
       compareTables defaultOrder Samples.schemaA Samples.schemaB
       = pre ++ [mkDiff MissingIndex "users.name" "idx_name" ""] ++ post)
  ∧ indexDiffs Samples.usersA Samples.usersB (mkIndex "idx_id" "id") = [].
Proof.
  split.
  - apply (index_presence_only defaultOrder Samples.schemaA Samples.schemaB
             "users" "name" Samples.usersA Samples.usersB
             (mkIndex "idx_name" "name")); reflexivity.
  - apply (index_presence_only defaultOrder Samples.schemaA Samples.schemaB
             "users" "id" Samples.usersA Samples.usersB
             (mkIndex "idx_id" "id") eq_refl eq_refl eq_refl)
      with (indexB := mkIndex "other_idx" "id").
    reflexivity.
Defined.

(** ** The parser, one line at a time *)

Lemma Split_cons (s : string) (sep : ascii) :
  ∃ w ws, strings.Split s sep = w :: ws.
Proof.
  induction s as [|c s (w & ws & IH)]; simpl; [eauto|].
  case_decide; [eauto|]. rewrite IH. eauto.
Qed.

(** Case analysis on the [if]s of [parseLine]. *)
Ltac parseLine_branches H :=
  repeat (first [case_decide | case_bool_decide];
          simpl in H |- *; try discriminate H; try lia).

Ltac parseLine_goal :=
  repeat (first [case_decide | case_bool_decide]; simpl; try lia).

Lemma parseLine_cases (st st' : State) (value : string) :
  parseLine st value = Some st' →
  st' = st
  ∨ (∃ tableName,
       st' = mkState (mkTable tableName ∅ ∅ ∅)
               (if analyzingTable st
                then <[Name (table st) := table st]> (tables st)
                else tables st) true)
  ∨ (analyzingTable st = true
     ∧ ((∃ name type other,
           st' = withTable st
                   (setColumn (table st) name (mkColumn name type other)))
        ∨ (∃ name columnName,
             st' = withTable st
                     (setIndex (table st) columnName (mkIndex name columnName)))
        ∨ (∃ c, lineConstraint value = Some c
                ∧ st' = withTable st
                          (setConstraint (table st) (Constraint_ColumnName c)
                             (Constraint_Type c) c)))).
Proof.
  unfold parseLine, lineConstraint, lineInfos.
  destruct (strings.Split (strings.Trim value " ") " ")
    as [|infos0 [|infos1 [|infos2 [|infos3 [|infos4 rest]]]]];
    destruct st as [t ts [|]]; unfold withTable, sliceFrom; simpl;
    try (destruct (isKeyword infos0) eqn:Hkw; simpl);
    intros Hst.
  all: parseLine_branches Hst.
  all: try (injection Hst as <-).
  all: try congruence.
  all: try (left; reflexivity).
  all: try (right; left; eexists; reflexivity).
  all: try (right; right; split; [reflexivity|]; left; do 3 eexists; reflexivity).
  all: try (right; right; split; [reflexivity|]; right; left; do 2 eexists;
            reflexivity).
  all: right; right; split; [reflexivity|]; right; right; eexists; split;
    reflexivity.
Qed.

(** A constraint or key line of a table body stores its constraint under
    the constraint's own column and kind. *)
Lemma parseLine_constraint (st : State) (value : string) (c : Constraint) :
  analyzingTable st = true →
  lineConstraint value = Some c →
  parseLine st value
  = Some (withTable st (setConstraint (table st) (Constraint_ColumnName c)
                          (Constraint_Type c) c)).
Proof.
  unfold parseLine, lineConstraint, lineInfos.
  destruct (strings.Split (strings.Trim value " ") " ")
    as [|infos0 [|infos1 [|infos2 [|infos3 [|infos4 rest]]]]];
    destruct st as [t ts an]; unfold withTable, sliceFrom; simpl;
    intros -> Hc; try discriminate Hc.
  all: parseLine_branches Hc.
  all: injection Hc as <-; subst; simpl.
  all: parseLine_goal; try congruence; reflexivity.
Qed.

(** A line of a table body with at least two tokens, which is neither the
    options trailer nor a header and whose first token is no keyword, is a
    column definition. *)
Lemma parseLine_column (st : State) (value infos0 infos1 : string)
    (rest : list string) :
  analyzingTable st = true →
  lineInfos value = infos0 :: infos1 :: rest →
  infos1 ≠ "ENGINE=InnoDB" →
  ¬ (infos0 = "CREATE" ∧ infos1 = "TABLE") →
  isKeyword infos0 = false →
  parseLine st value
  = Some (withTable st
            (setColumn (table st) (strings.Trim infos0 "`")
               (mkColumn (strings.Trim infos0 "`") infos1
                  (strings.Trim (strings.Join rest " ") ",")))).
Proof.
  unfold parseLine, lineInfos. intros Han -> Hengine Hheader Hkw.
  unfold sliceFrom; simpl. rewrite Han, Hkw; simpl.
  parseLine_goal; first [reflexivity | tauto | congruence].
Qed.

(** Outside a table body, a line that is neither a header nor the lone
    token [CREATE] changes nothing. *)
Lemma parseLine_outside (st : State) (value : string) :
  analyzingTable st = false →
  isHeaderLine value = false →
  isBareCreate value = false →
  parseLine st value = Some st.
Proof.
  unfold parseLine, isHeaderLine, isBareCreate, lineInfos.
  destruct (Split_cons (strings.Trim value " ") " ") as (infos0 & tl & ->).
  destruct st as [t ts an]; simpl.
  destruct tl as [|infos1 tl]; intros -> Hheader Hbare; simpl in *.
  all: parseLine_goal; try congruence; try done.
Qed.

(** ** What the parser maintains *)

Lemma goodTable_empty (tableName : string) : goodTable (mkTable tableName ∅ ∅ ∅).
Proof.
  split; [split|]; repeat intros ?; simpl in *; by simplify_map_eq.
Qed.

Lemma goodTable_setColumn t name type other :
  goodTable t → goodTable (setColumn t name (mkColumn name type other)).
Proof.
  intros [[Hcols Hidx] Hcon]. split; [split|]; simpl; try done.
  intros k column [[<- <-]|[_ Hk]]%lookup_insert_Some; [done|]. by eapply Hcols.
Qed.

Lemma goodTable_setIndex t name columnName :
  goodTable t → goodTable (setIndex t columnName (mkIndex name columnName)).
Proof.
  intros [[Hcols Hidx] Hcon]. split; [split|]; simpl; try done.
  intros k index [[<- <-]|[_ Hk]]%lookup_insert_Some; [done|]. by eapply Hidx.
Qed.

Lemma goodTable_setConstraint t c :
  goodTable t →
  goodTable (setConstraint t (Constraint_ColumnName c) (Constraint_Type c) c).
Proof.
  intros [[Hcols Hidx] Hcon]. split; [split|]; simpl; try done.
  unfold constraintsKeyed, setConstraint; simpl.
  intros col m kind c' [[<- <-]|[Hne Hm]]%lookup_insert_Some.
  - intros [[<- <-]|[Hkind Hc']]%lookup_insert_Some; [done|].
    destruct (Constraints t !! Constraint_ColumnName c) as [m|] eqn:Hm;
      simpl in Hc'; [|by rewrite lookup_empty in Hc'].
    by eapply Hcon.
  - intros Hc'. by eapply Hcon.
Qed.

Lemma goodTables_insert ts t :
  goodTables ts → goodTable t → goodTables (<[Name t := t]> ts).
Proof.
  intros Hts Ht k t' [[<- <-]|[_ Hk]]%lookup_insert_Some; [done|]. by apply Hts.
Qed.

Lemma parseLine_good st st' value :
  goodState st → parseLine st value = Some st' → goodState st'.
Proof.
  intros [Ht Hts] Hline.
  destruct (parseLine_cases _ _ _ Hline)
    as [->|[(tableName & ->)
           |(_ & [(name & type & other & ->)
                 |[(name & columnName & ->)|(c & _ & ->)]])]];
    split; simpl;
    first [ done | apply goodTable_empty | by apply goodTable_setColumn
          | by apply goodTable_setIndex | by apply goodTable_setConstraint
          | idtac ].
  destruct (analyzingTable st); [by apply goodTables_insert|done].
Qed.

Lemma parseLines_good res st st' :
  goodState st → parseLines st res = Some st' → goodState st'.
Proof.
  revert st. induction res as [|value res IH]; intros st Hst; simpl.
  - by intros [= <-].
  - destruct (parseLine st value) as [st1|] eqn:Hline; simpl; [|done].
    eauto using parseLine_good.
Qed.

Lemma initState_good : goodState initState.
Proof. split; [apply goodTable_empty|]. intros k t Hk. by simplify_map_eq. Qed.

Lemma parseTables_good data A : parseTables data = Some A → goodTables A.
Proof.
  unfold parseTables.
  destruct (parseLines initState _) as [st|] eqn:Hlines; simpl; [|done].
  intros [= <-].
  destruct (parseLines_good _ _ _ initState_good Hlines) as [Ht Hts].
  by apply goodTables_insert.
Qed.

(** Every schema the parser returns has the data model's identities. *)
Lemma parseTables_wf data A : parseTables data = Some A → wfSchema A.
Proof.
  intros Hparse k t Hk.
  destruct (parseTables_good _ _ Hparse k t Hk) as (? & ? & _). done.
Qed.


(** ** Input without a header *)

Lemma parseLines_outside (res : list string) (st : State) :
  analyzingTable st = false →
  forallb (λ value, negb (isHeaderLine value) && negb (isBareCreate value)) res
  = true →
  parseLines st res = Some st.
Proof.
  intros Hst. induction res as [|value res IH]; simpl; [done|].
  intros [[Hh%negb_true_iff Hb%negb_true_iff]%andb_true_iff Hres]%andb_true_iff.
  rewrite parseLine_outside by done. simpl. auto.
Qed.

(** When no line opens a table and none is the lone token [CREATE], the
    schema holds the never-opened table under the empty name, and nothing
    else. *)
Lemma parseTables_no_header (data : string) :
  forallb (λ value, negb (isHeaderLine value) && negb (isBareCreate value))
    (strings.Split data newline) = true →
  parseTables data = Some {["" := zeroTable]}.
Proof.
  intros Hlines. unfold parseTables.
  rewrite parseLines_outside by done. simpl. by rewrite insert_empty.
Qed.

(** ** The parser's claims *)

(** C4. The parser is not total.  On the one-line input [CREATE] the test
    [infos[0] == "CREATE" && infos[1] == "TABLE"] indexes past the only
    token, and inside a table body a line of one token that is no keyword,
    such as a closing parenthesis, is sliced past its end: both runs
    panic instead of skipping the line. *)
Theorem parseTables_panics :
  parseTables "CREATE" = None ∧ parseTables Samples.textParen = None.
Proof. split; reflexivity. Qed.

(** C8. In every schema the parser returns, a table holds at most one
    constraint for a column name and kind; and a constraint or key line of
    a table body replaces whatever the table held for its column and kind
    (the constraint of an earlier line, say) and touches no other entry. *)
Theorem constraint_per_column_kind :
  (∀ data A k t c1 c2,
     parseTables data = Some A → A !! k = Some t →
     hasConstraint t c1 → hasConstraint t c2 →
     Constraint_ColumnName c1 = Constraint_ColumnName c2 →
     Constraint_Type c1 = Constraint_Type c2 →
     c1 = c2)
  ∧ (∀ st value c,
       analyzingTable st = true →
       lineConstraint value = Some c →
       ∃ st', parseLine st value = Some st'
              ∧ analyzingTable st' = true
              ∧ lookupConstraint (table st') (Constraint_ColumnName c)
                  (Constraint_Type c) = Some c
              ∧ ∀ columnName constraintType,
                  ¬ (columnName = Constraint_ColumnName c
                     ∧ constraintType = Constraint_Type c) →
                  lookupConstraint (table st') columnName constraintType
                  = lookupConstraint (table st) columnName constraintType).
Proof.
  split.
  - intros data A k t c1 c2 Hparse Hk (col1 & m1 & ty1 & Hm1 & Hc1)
      (col2 & m2 & ty2 & Hm2 & Hc2) Hcol Hty.
    destruct (parseTables_good _ _ Hparse k t Hk) as (_ & _ & Hkeyed).
    destruct (Hkeyed _ _ _ _ Hm1 Hc1) as [<- <-].
    destruct (Hkeyed _ _ _ _ Hm2 Hc2) as [<- <-].
    rewrite Hcol, Hm2 in Hm1. injection Hm1 as <-.
    rewrite Hty, Hc2 in Hc1. by injection Hc1.
  - intros st value c Han Hc.
    eexists. split; [by apply parseLine_constraint|].
    destruct st as [t ts an]; simpl in *. split; [done|]. split.
    + rewrite lookupConstraint_setConstraint. by rewrite decide_True.
    + intros col kind Hne. rewrite lookupConstraint_setConstraint.
      by rewrite decide_False.
Qed.

Lemma constraint_per_column_kind_witness :
  (parseTables Samples.textTwice = Some {["t" := Samples.tableTwice]}
   ∧ hasConstraint Samples.tableTwice Samples.fkB
   ∧ Samples.fkB = Samples.fkB)
  ∧ ∃ st', parseLine Samples.stateAfterFkA Samples.lineFkB = Some st'
           ∧ analyzingTable st' = true
           ∧ lookupConstraint (table st') "org_id" "FOREIGN" = Some Samples.fkB
           ∧ ∀ columnName constraintType,
               ¬ (columnName = "org_id" ∧ constraintType = "FOREIGN") →
               lookupConstraint (table st') columnName constraintType
               = lookupConstraint (table Samples.stateAfterFkA) columnName
                   constraintType.
Proof.
  destruct constraint_per_column_kind as [Hone Hlater].
  assert (hasConstraint Samples.tableTwice Samples.fkB) as Hhas.
  { exists "org_id", {["FOREIGN" := Samples.fkB]}, "FOREIGN".
    split; reflexivity. }
  split.
  - split_and!; [reflexivity|exact Hhas|].
    apply (Hone Samples.textTwice {["t" := Samples.tableTwice]} "t"
             Samples.tableTwice Samples.fkB Samples.fkB);
      first [reflexivity | exact Hhas].
  - apply (Hlater Samples.stateAfterFkA Samples.lineFkB Samples.fkB);
      reflexivity.
Defined.

(** C9. An input without a header line does not always yield the schema
    with the never-opened table: the one-line input [CREATE] has no header
    line, and the parser panics on it before its final commit.  (For inputs
    without a header line and without such a line the commit happens:
    [parseTables_no_header].) *)
Theorem no_header_panics :
  noHeaderLine "CREATE" = true ∧ parseTables "CREATE" = None.
Proof. split; reflexivity. Qed.

(** C10. A column definition line stores its second token as the type,
    untouched; only the joined remainder loses its commas (and the name its
    back quotes).  So [id INT,] is stored with type [INT,], [id INT NOT
    NULL,] with type [INT], and comparing the two reports a
    WRONG_COLUMN_TYPE. *)
Theorem column_type_verbatim :
  (∀ st value infos0 infos1 rest,
     analyzingTable st = true →
     lineInfos value = infos0 :: infos1 :: rest →
     infos1 ≠ "ENGINE=InnoDB" →
     ¬ (infos0 = "CREATE" ∧ infos1 = "TABLE") →
     isKeyword infos0 = false →
     parseLine st value
     = Some (withTable st
               (setColumn (table st) (strings.Trim infos0 "`")
                  (mkColumn (strings.Trim infos0 "`") infos1
                     (strings.Trim (strings.Join rest " ") ",")))))
  ∧ parseTables Samples.textComma = Some {["t" := Samples.tableComma]}
  ∧ parseTables Samples.textNotNull = Some {["t" := Samples.tableNotNull]}
  ∧ Columns Samples.tableComma !! "id" = Some (mkColumn "id" "INT," "")
  ∧ Columns Samples.tableNotNull !! "id" = Some (mkColumn "id" "INT" "NOT NULL")
  ∧ ∀ O : RangeOrder,
      mkDiff WrongColumnType "t.id" "INT," "INT"
      ∈ compareTables O {["t" := Samples.tableComma]}
          {["t" := Samples.tableNotNull]}.
Proof.
  split_and!; try reflexivity.
  - intros. by apply parseLine_column.
  - intros O. apply compareTables_emitted.
    exact (emitted_WrongColumnType {["t" := Samples.tableComma]}
             {["t" := Samples.tableNotNull]} "t" Samples.tableComma
             Samples.tableNotNull "id" (mkColumn "id" "INT," "")
             (mkColumn "id" "INT" "NOT NULL") eq_refl eq_refl eq_refl eq_refl
             ltac:(discriminate)).
Qed.

Lemma column_type_verbatim_witness :
  parseLine (mkState (mkTable "t" ∅ ∅ ∅) ∅ true) "  `id` INT,"
  = Some (mkState (mkTable "t" {["id" := mkColumn "id" "INT," ""]} ∅ ∅) ∅ true).
Proof.
  destruct column_type_verbatim as [Hline _].
  apply (Hline (mkState (mkTable "t" ∅ ∅ ∅) ∅ true) "  `id` INT," "`id`" "INT,"
           []); first [reflexivity | discriminate | by intros [? _]].
Defined.


(** * Further properties of the diff engine *)

Lemma bind_perm {X Y : Type} (f g : X → list Y) (xs ys : list X) :
  xs ≡ₚ ys → (∀ x, f x ≡ₚ g x) → xs ≫= f ≡ₚ ys ≫= g.
Proof.
  intros Hxs Hfg. rewrite Hxs. clear xs Hxs.
  induction ys as [|y ys IH]; [done|].
  rewrite !bind_cons. by rewrite IH, (Hfg y).
Qed.

Lemma range_values_perm (O O' : RangeOrder) {V : Type} (m : gmap string V) :
  (range O m).*2 ≡ₚ (range O' m).*2.
Proof. by rewrite !range_perm. Qed.

Lemma tableDiffs_perm (O O' : RangeOrder) (B : gmap string Table) (tableA : Table) :
  tableDiffs O B tableA ≡ₚ tableDiffs O' B tableA.
Proof.
  destruct (B !! Name tableA) as [tableB|] eqn:HB.
  - rewrite !(tableDiffs_found _ _ _ _ HB).
    repeat apply Permutation_app.
    + apply bind_perm; [apply range_values_perm|done].
    + apply bind_perm; [apply range_values_perm|done].
    + apply bind_perm; [by rewrite !range_perm|].
      intros [col m]. rewrite !columnConstraintDiffs_bind.
      apply bind_perm; [by rewrite !range_perm|done].
  - by rewrite !(tableDiffs_missing _ _ _ HB).
Qed.

Lemma compareTables_perm (O O' : RangeOrder) (A B : gmap string Table) :
  compareTables O A B ≡ₚ compareTables O' A B.
Proof.
  rewrite !compareTables_bind.
  apply bind_perm; [apply range_values_perm|]. intros tableA.
  apply tableDiffs_perm.
Qed.

(** X1. The records of [compareTables A B] do not depend on the order in
    which the maps are visited: two runs give the same records, the same
    number of times each, possibly in another order. *)
Theorem compareTables_order_independent (O O' : RangeOrder)
    (A B : gmap string Table) :
  compareTables O A B ≡ₚ compareTables O' A B.
Proof. apply compareTables_perm. Qed.

Lemma nil_iff_no_emitted (O : RangeOrder) (A B : gmap string Table) :
  compareTables O A B = [] ↔ ∀ d, ¬ emitted A B d.
Proof.
  split.
  - intros Hnil d Hd%(compareTables_emitted O). rewrite Hnil in Hd.
    by apply elem_of_nil in Hd.
  - intros Hno. apply elem_of_nil_inv. intros d Hd%compareTables_emitted.
    by apply (Hno d).
Qed.

Lemma nil_iff_covers (O : RangeOrder) (A B : gmap string Table) :
  compareTables O A B = [] ↔ covers A B.
Proof.
  rewrite nil_iff_no_emitted. split.
  - intros Hno k tableA HA.
    destruct (B !! Name tableA) as [tableB|] eqn:HB.
    2: { exfalso. eapply Hno. by eapply emitted_MissingTable. }
    exists tableB. split_and!; [done|..].
    + intros kc columnA Hc.
      destruct (Columns tableB !! Column_Name columnA) as [columnB|] eqn:Hs.
      2: { exfalso. eapply Hno. by eapply emitted_MissingColumn. }
      exists columnB. split_and!; [done|..].
      * destruct (decide (Column_Type columnA = Column_Type columnB)); [done|].
        exfalso. eapply Hno. by eapply emitted_WrongColumnType.
      * destruct (decide (Column_Other columnA = Column_Other columnB)); [done|].
        exfalso. eapply Hno. by eapply emitted_WrongColumnOther.
    + intros ki indexA Hi.
      destruct (Indexes tableB !! Index_ColumnName indexA) eqn:Hs; [by eexists|].
      exfalso. eapply Hno. by eapply emitted_MissingIndex.
    + intros col m ty cA Hm Hc.
      destruct (lookupConstraint tableB col ty) as [cB|] eqn:Hs.
      2: { exfalso. eapply Hno. by eapply emitted_MissingConstraint. }
      exists cB. split; [done|].
      destruct (decide (Constraint_Other cA = Constraint_Other cB)); [done|].
      exfalso. eapply Hno. by eapply emitted_WrongConstraintOther.
  - intros Hcov d Hd.
    destruct Hd as [k tableA HA HB | k tableA tableB kc columnA HA HB Hc Hn
      | k tableA tableB kc columnA columnB HA HB Hc Hs Hne
      | k tableA tableB kc columnA columnB HA HB Hc Hs Hne
      | k tableA tableB ki indexA HA HB Hi Hn
      | k tableA tableB col m ty c HA HB Hm Hc Hn
      | k tableA tableB col m ty c cB HA HB Hm Hc Hs Hne];
      destruct (Hcov k tableA HA) as (tableB' & HB' & Hcols & Hidx & Hcon);
      simplify_eq.
    + destruct (Hcols kc columnA Hc) as (? & ? & _); simplify_eq.
    + destruct (Hcols kc columnA Hc) as (? & ? & ? & _); simplify_eq.
    + destruct (Hcols kc columnA Hc) as (? & ? & _ & ?); simplify_eq.
    + destruct (Hidx ki indexA Hi) as [? ?]; simplify_eq.
    + destruct (Hcon col m ty c Hm Hc) as (? & ? & _); simplify_eq.
    + destruct (Hcon col m ty c Hm Hc) as (? & ? & ?); simplify_eq.
Qed.

(** X2. [compareTables A B] is empty exactly when [B] has everything [A]
    has: every table of [A] by name, every column with equal type and
    remainder, an index entry for every indexed column and every constraint
    with an equal trailing clause.  What else [B] holds plays no part. *)
Theorem compareTables_nil_iff_covers (O : RangeOrder) (A B : gmap string Table) :
  compareTables O A B = [] ↔ covers A B.
Proof. apply nil_iff_covers. Qed.

Ltac kind_membership :=
  unfold knownType, kindOrder, missingKinds, wrongKinds;
  rewrite ?elem_of_cons, ?elem_of_nil;
  unfold MissingTable, MissingColumn, WrongColumnType, WrongColumnOther,
    MissingIndex, MissingConstraint, WrongConstraintOther.

(** X3. Every record of [compareTables] carries one of the seven kinds; a
    record of a MISSING kind has an empty B field, and a record of a WRONG
    kind has different A and B fields. *)
Theorem compareTables_record_fields (O : RangeOrder) (A B : gmap string Table)
    (d : Diff) :
  d ∈ compareTables O A B →
  knownType d
  ∧ (Diff_Type d ∈ missingKinds → Diff_B d = "")
  ∧ (Diff_Type d ∈ wrongKinds → Diff_A d ≠ Diff_B d).
Proof.
  intros Hd%compareTables_emitted.
  destruct Hd; simpl; kind_membership; split_and!; try tauto; try done;
    intros; intuition congruence.
Qed.

Lemma compareTables_record_fields_witness :
  let d := mkDiff WrongColumnType "users.id" "INT," "INT" in
  knownType d
  ∧ (Diff_Type d ∈ missingKinds → Diff_B d = "")
  ∧ (Diff_Type d ∈ wrongKinds → Diff_A d ≠ Diff_B d).
Proof.
  apply (compareTables_record_fields defaultOrder Samples.schemaA Samples.schemaB).
  vm_compute. repeat first [left; reflexivity | right].
Defined.

Lemma constraintDiffs_turn (O : RangeOrder) (A B : gmap string Table)
    (k : string) (tableA tableB : Table) (columnNameA constraintTypeA : string)
    (m : gmap string Constraint) (constraintA : Constraint) :
  A !! k = Some tableA →
  B !! Name tableA = Some tableB →
  Constraints tableA !! columnNameA = Some m →
  m !! constraintTypeA = Some constraintA →
  ∃ pre post,
    compareTables O A B
    = pre ++ constraintDiffs tableA tableB columnNameA
               (constraintTypeA, constraintA) ++ post.
Proof.
  intros HA HB Hm Hc.
  destruct (tableDiffs_turn O A B k tableA HA) as (pre & post & ->).
  rewrite (tableDiffs_found _ _ _ _ HB).
  destruct (bind_split (columnConstraintDiffs O tableA tableB)
              (range O (Constraints tableA)) (columnNameA, m))
    as (l1 & l2 & ->); [by apply elem_of_range|].
  rewrite columnConstraintDiffs_bind.
  destruct (bind_split (constraintDiffs tableA tableB columnNameA)
              (range O m) (constraintTypeA, constraintA))
    as (l3 & l4 & ->); [by apply elem_of_range|].
  exists (pre ++ ((range O (Columns tableA)).*2 ≫= columnDiffs tableA tableB)
            ++ ((range O (Indexes tableA)).*2 ≫= indexDiffs tableA tableB)
            ++ l1 ++ l3),
    (l4 ++ l2 ++ post).
  by rewrite <- !app_assoc.
Qed.

(** X4. A table of [A] whose name [B] lacks contributes exactly one
    record, MISSING_TABLE with the table name as target and as A and an
    empty B; none of its columns, indexes or constraints is looked at. *)
Theorem missing_table_record (O : RangeOrder) (A B : gmap string Table)
    (k : string) (tableA : Table) :
  A !! k = Some tableA →
  B !! Name tableA = None →
  let record := mkDiff MissingTable (Name tableA) (Name tableA) "" in
  tableDiffs O B tableA = [record]
  ∧ ∃ pre post, compareTables O A B = pre ++ [record] ++ post.
Proof.
  intros HA HB record.
  assert (tableDiffs O B tableA = [record]) as Hturn
    by by apply tableDiffs_missing.
  split; [done|]. rewrite <- Hturn. by eapply tableDiffs_turn.
Qed.

Lemma missing_table_record_witness :
  tableDiffs defaultOrder Samples.schemaB Samples.ordersB
  = [mkDiff MissingTable "orders" "orders" ""]
  ∧ ∃ pre post,
      compareTables defaultOrder {["orders" := Samples.ordersB]} Samples.schemaB
      = pre ++ [mkDiff MissingTable "orders" "orders" ""] ++ post.
Proof.
  apply (missing_table_record defaultOrder {["orders" := Samples.ordersB]}
           Samples.schemaB "orders" Samples.ordersB); reflexivity.
Defined.

(** X5. A constraint of [A] filed under a column and kind for which [B]'s
    table has none contributes one MISSING_CONSTRAINT record (target
    [table.column], A the constraint's kind, B empty).  When [B]'s table has
    one, the constraint contributes one WRONG_CONSTRAINT_OTHER record (target
    [table.column.kind]) if the trailing clauses differ and nothing if they
    are equal; the constraints' names are never compared. *)
Theorem constraint_records (O : RangeOrder) (A B : gmap string Table)
    (k columnNameA constraintTypeA : string) (tableA tableB : Table)
    (m : gmap string Constraint) (constraintA : Constraint) :
  A !! k = Some tableA →
  B !! Name tableA = Some tableB →
  Constraints tableA !! columnNameA = Some m →
  m !! constraintTypeA = Some constraintA →
  let turn := constraintDiffs tableA tableB columnNameA
                (constraintTypeA, constraintA) in
  (∃ pre post, compareTables O A B = pre ++ turn ++ post)
  ∧ (lookupConstraint tableB columnNameA constraintTypeA = None →
       turn = [mkDiff MissingConstraint (dotted (Name tableA) columnNameA)
                 (Constraint_Type constraintA) ""])
  ∧ (∀ constraintB,
       lookupConstraint tableB columnNameA constraintTypeA = Some constraintB →
       Constraint_Other constraintA ≠ Constraint_Other constraintB →
       turn = [mkDiff WrongConstraintOther
                 (dotted (dotted (Name tableA) columnNameA)
                    (Constraint_Type constraintA))
                 (Constraint_Other constraintA) (Constraint_Other constraintB)])
  ∧ (∀ constraintB,
       lookupConstraint tableB columnNameA constraintTypeA = Some constraintB →
       Constraint_Other constraintA = Constraint_Other constraintB →
       turn = []).
Proof.
  intros HA HB Hm Hc turn. split_and!.
  - by eapply constraintDiffs_turn.
  - intros Hs. unfold turn, constraintDiffs. by rewrite Hs.
  - intros cB Hs Hne. unfold turn, constraintDiffs. rewrite Hs.
    by rewrite decide_True.
  - intros cB Hs Heq. unfold turn, constraintDiffs. rewrite Hs.
    rewrite decide_False; [done|]. by intros ?.
Qed.

Lemma constraint_records_witness :
  (∃ pre post,
     compareTables defaultOrder Samples.schemaA Samples.schemaB
     = pre ++ [mkDiff WrongConstraintOther "users.org_id.FOREIGN"
                 "REFERENCES orgs(id)" "REFERENCES other(id)"] ++ post)
  ∧ constraintDiffs Samples.usersA Samples.usersA "org_id"
      ("FOREIGN", mkConstraint "fk_x" "org_id" "FOREIGN" "REFERENCES orgs(id)")
    = []
  ∧ constraintDiffs Samples.usersA Samples.ordersB "org_id"
      ("FOREIGN", mkConstraint "fk_x" "org_id" "FOREIGN" "REFERENCES orgs(id)")
    = [mkDiff MissingConstraint "users.org_id" "FOREIGN" ""].
Proof.
  pose (cA := mkConstraint "fk_x" "org_id" "FOREIGN" "REFERENCES orgs(id)").
  pose (mA := ({["FOREIGN" := cA]} : gmap string Constraint)).
  split_and!.
  - destruct (constraint_records defaultOrder Samples.schemaA Samples.schemaB
                "users" "org_id" "FOREIGN" Samples.usersA Samples.usersB mA cA
                eq_refl eq_refl eq_refl eq_refl) as (Hturn & _).
    exact Hturn.
  - destruct (constraint_records defaultOrder Samples.schemaA Samples.schemaA
                "users" "org_id" "FOREIGN" Samples.usersA Samples.usersA mA cA
                eq_refl eq_refl eq_refl eq_refl) as (_ & _ & _ & Hsame).
    apply (Hsame cA); reflexivity.
  - destruct (constraint_records defaultOrder Samples.schemaA
                ({["users" := Samples.ordersB]} : gmap string Table)
                "users" "org_id" "FOREIGN" Samples.usersA Samples.ordersB mA cA)
      as (_ & Hmissing & _); [reflexivity..|].
    apply Hmissing. reflexivity.
Defined.

Lemma range_empty (O : RangeOrder) {V : Type} : range O (∅ : gmap string V) = [].
Proof. apply Permutation_nil_r. by rewrite range_perm, map_to_list_empty. Qed.

(** X6. Against an empty schema every table of [A] is reported missing,
    once, and nothing else is reported; an empty [A] yields no record
    whatever [B] holds. *)
Theorem compareTables_empty (O : RangeOrder) (A B : gmap string Table) :
  compareTables O A ∅
  = (λ tableA, mkDiff MissingTable (Name tableA) (Name tableA) "")
      <$> (range O A).*2
  ∧ length (compareTables O A ∅) = size A
  ∧ compareTables O ∅ B = [].
Proof.
  assert (compareTables O A ∅
          = (λ tableA, mkDiff MissingTable (Name tableA) (Name tableA) "")
              <$> (range O A).*2) as Hall.
  { rewrite compareTables_bind.
    induction ((range O A).*2) as [|tableA l IH]; [done|].
    rewrite bind_cons, fmap_cons, IH.
    by rewrite tableDiffs_missing by apply lookup_empty. }
  split_and!; [done| |].
  - rewrite Hall, !length_fmap, (range_perm O). apply length_map_to_list.
  - unfold compareTables. by rewrite range_empty.
Qed.

(** * Further properties of the grouping *)

Lemma ofType_app (k : string) (ds ds' : list Diff) :
  ofType k (ds ++ ds') = ofType k ds ++ ofType k ds'.
Proof. apply filter_app. Qed.

Lemma ofType_ofType (k k' : string) (ds : list Diff) :
  ofType k (ofType k' ds) = if decide (k = k') then ofType k ds else [].
Proof.
  unfold ofType. induction ds as [|d ds IH]; [by case_decide|].
  rewrite !filter_cons.
  destruct (decide (Diff_Type d = k')) as [Hk'|Hk'].
  - rewrite filter_cons, IH.
    destruct (decide (Diff_Type d = k)) as [Hk|Hk]; case_decide; congruence.
  - rewrite IH. case_decide; [|done]. subst k'. by rewrite decide_False.
Qed.

Lemma ofType_groupByType (k : string) (ds : list Diff) :
  ofType k (groupByType ds) = if decide (k ∈ kindOrder) then ofType k ds else [].
Proof.
  rewrite groupByType_ofType, !ofType_app, !ofType_ofType.
  unfold kindOrder.
  destruct (decide (k ∈ _)) as [Hin|Hin];
    rewrite !elem_of_cons, elem_of_nil in Hin;
    repeat case_decide; subst; try distinct_kinds; rewrite ?app_nil_r;
    first [done | tauto].
Qed.

(** X7. Grouping twice is grouping once. *)
Theorem groupByType_idempotent (ds : list Diff) :
  groupByType (groupByType ds) = groupByType ds.
Proof.
  rewrite (groupByType_ofType (groupByType ds)), !ofType_groupByType.
  rewrite !decide_True by (unfold kindOrder; rewrite !elem_of_cons; tauto).
  symmetry. apply groupByType_ofType.
Qed.

Lemma ofType_known (k : string) (ds : list Diff) :
  k ∈ kindOrder → ofType k (filter knownType ds) = ofType k ds.
Proof.
  intros Hk. unfold ofType. induction ds as [|d ds IH]; [done|].
  rewrite !filter_cons. destruct (decide (knownType d)) as [Hd|Hd].
  - by rewrite filter_cons, IH.
  - rewrite IH. rewrite decide_False; [done|].
    intros Heq. apply Hd. unfold knownType. by rewrite Heq.
Qed.

(** X8. [groupByType] keeps exactly the records whose type is one of the
    seven kinds, each as often as it occurs in the input, and drops every
    other record: its [switch] has no default case. *)
Theorem groupByType_keeps_known (ds : list Diff) :
  groupByType ds ≡ₚ filter knownType ds
  ∧ ∀ d, d ∈ groupByType ds ↔ d ∈ ds ∧ knownType d.
Proof.
  assert (groupByType ds ≡ₚ filter knownType ds) as Hperm.
  { rewrite <- (groupByType_perm (filter knownType ds)).
    - rewrite !groupByType_ofType.
      by rewrite !ofType_known by (unfold kindOrder; rewrite !elem_of_cons; tauto).
    - apply Forall_forall. by intros d [? _]%list_elem_of_filter. }
  split; [done|]. intros d. rewrite Hperm, list_elem_of_filter. tauto.
Qed.


(** * Further properties of the parser *)

Ltac parseLine_tokens value :=
  unfold parseLine, lineInfos;
  destruct (strings.Split (strings.Trim value " ") " ")
    as [|infos0 [|infos1 [|infos2 [|infos3 [|infos4 rest]]]]].

Lemma isKeyword_branch (infos0 : string) :
  isBranchKeyword infos0 = true → isKeyword infos0 = true.
Proof.
  unfold isBranchKeyword, isKeyword, keywords; simpl.
  repeat case_bool_decide; simpl; try done.
Qed.

Lemma parseLine_None (st : State) (value : string) :
  parseLine st value = None
  ↔ tooShort (analyzingTable st) (lineInfos value) = true.
Proof.
  pose proof (Split_cons (strings.Trim value " ") " ") as (w & ws & Hw).
  unfold tooShort. parseLine_tokens value; [done|..];
    destruct st as [t ts [|]]; unfold withTable, sliceFrom; simpl;
    pose proof (isKeyword_branch infos0) as Hbranch;
    unfold isBranchKeyword in *;
    destruct (isKeyword infos0) eqn:Hkw; simpl.
  all: repeat (first [case_decide | case_bool_decide]; simpl in *; try lia).
  all: try (split; [done|]; done).
  all: try (split; done).
  all: try (exfalso; by apply Hbranch).
  all: try congruence.
Qed.

(** X9. The parser panics on a line exactly when the line is too short for
    the branch it selects: the lone token [CREATE]; [CREATE TABLE] without a
    name; inside a table body a single token other than the empty string
    and [--]; a [KEY], [PRIMARY] or [UNIQUE] line of fewer than three
    tokens; a [CONSTRAINT] line of fewer than five.  A line whose second
    token is [ENGINE=InnoDB] never panics. *)
Theorem parseLine_panics_iff_tooShort (st : State) (value : string) :
  parseLine st value = None
  ↔ tooShort (analyzingTable st) (lineInfos value) = true.
Proof. apply parseLine_None. Qed.

Lemma tooShort_inside (analyzing : bool) (infos : list string) :
  tooShort true infos = false → tooShort analyzing infos = false.
Proof.
  destruct analyzing; [done|].
  destruct infos as [|infos0 [|infos1 [|infos2 tl]]]; simpl; try done.
  - intros [? _]%orb_false_iff. by rewrite orb_false_r.
  - destruct (bool_decide (infos1 = _)); simpl; [done|].
    intros [-> _]%orb_false_iff. done.
  - by rewrite andb_false_r.
Qed.

Lemma parseLines_total (res : list string) (st : State) :
  Forall (λ value, tooShort true (lineInfos value) = false) res →
  is_Some (parseLines st res).
Proof.
  intros Hres. revert st. induction Hres as [|value res Hv _ IH]; intros st.
  - by eexists.
  - simpl. destruct (parseLine st value) as [st'|] eqn:Hline; simpl; [done|].
    apply parseLine_None in Hline.
    by rewrite (tooShort_inside _ _ Hv) in Hline.
Qed.

(** X10. A text none of whose lines is too short for a table body is
    parsed to the end: [parseTables] returns a schema. *)
Theorem parseTables_total (data : string) :
  Forall (λ value, tooShort true (lineInfos value) = false)
    (strings.Split data newline) →
  is_Some (parseTables data).
Proof.
  intros Hlines. unfold parseTables.
  destruct (parseLines_total _ initState Hlines) as [st ->]. by eexists.
Qed.

Lemma parseTables_total_witness : is_Some (parseTables Samples.textA).
Proof.
  apply parseTables_total. vm_compute. repeat constructor.
Defined.


Lemma trimRightByte_onlySpaces (s : string) :
  onlySpaces s = true → strings.trimRightByte s " " = EmptyString.
Proof.
  induction s as [|c s IH]; simpl; [done|].
  intros [Hc%bool_decide_eq_true Hs]%andb_true_iff.
  rewrite (IH Hs). by rewrite decide_True.
Qed.

Lemma lineInfos_onlySpaces (value : string) :
  onlySpaces value = true → lineInfos value = [EmptyString].
Proof.
  intros Hs. unfold lineInfos, strings.Trim.
  by rewrite trimRightByte_onlySpaces.
Qed.

(** X11. Three kinds of line change nothing and never panic, inside a table
    body or outside: a line of spaces only (the empty line among them), a
    line whose first token is [--], and a line whose second token is
    [ENGINE=InnoDB]. *)
Theorem parseLine_ignored (st : State) (value : string) :
  onlySpaces value = true
  ∨ lineInfos value !! 0 = Some "--"
  ∨ lineInfos value !! 1 = Some "ENGINE=InnoDB" →
  parseLine st value = Some st.
Proof.
  intros [Hblank|Hline].
  - apply lineInfos_onlySpaces in Hblank. revert Hblank.
    unfold parseLine, lineInfos. intros ->. by destruct st as [t ts [|]].
  - revert Hline. parseLine_tokens value; simpl;
      intros [Hc|He]; simplify_eq; destruct st as [t ts [|]]; simpl;
      repeat (first [case_decide | case_bool_decide]; simpl; try lia);
      try done.
Qed.

Lemma parseLine_ignored_witness :
  parseLine Samples.stateAfterFkA "   " = Some Samples.stateAfterFkA
  ∧ parseLine Samples.stateAfterFkA "-- Table structure for table `users`"
    = Some Samples.stateAfterFkA
  ∧ parseLine Samples.stateAfterFkA ") ENGINE=InnoDB DEFAULT CHARSET=utf8;"
    = Some Samples.stateAfterFkA.
Proof.
  split_and!; apply parseLine_ignored.
  - left. reflexivity.
  - right. left. reflexivity.
  - right. right. reflexivity.
Defined.

Lemma parseLine_step (st st' : State) (value : string) :
  parseLine st value = Some st' →
  if isHeaderLine value then
    ∃ infos2, lineInfos value !! 2 = Some infos2
      ∧ st' = mkState (mkTable (strings.Trim infos2 "`") ∅ ∅ ∅)
                (if analyzingTable st
                 then <[Name (table st) := table st]> (tables st)
                 else tables st) true
  else
    tables st' = tables st
    ∧ Name (table st') = Name (table st)
    ∧ analyzingTable st' = analyzingTable st.
Proof.
  unfold isHeaderLine. parseLine_tokens value;
    destruct st as [t ts [|]]; unfold withTable, sliceFrom; simpl;
    try (destruct (isKeyword infos0) eqn:Hkw; simpl);
    intros Hst.
  all: parseLine_branches Hst.
  all: try (injection Hst as <-); simpl.
  all: try congruence.
  all: try done.
  all: eexists; split; reflexivity.
Qed.

(** X12. Only a header line touches the committed tables.  A header line
    commits the open table under its name (nothing, when no table was
    open), and opens an empty table named by its third token without the
    surrounding back quotes; any other line leaves the committed tables,
    the open table's name and the inside-a-table flag as they were, so a
    table body is never closed. *)
Theorem parseLine_header_or_body (st st' : State) (value : string) :
  parseLine st value = Some st' →
  if isHeaderLine value then
    ∃ infos2, lineInfos value !! 2 = Some infos2
      ∧ st' = mkState (mkTable (strings.Trim infos2 "`") ∅ ∅ ∅)
                (if analyzingTable st
                 then <[Name (table st) := table st]> (tables st)
                 else tables st) true
  else
    tables st' = tables st
    ∧ Name (table st') = Name (table st)
    ∧ analyzingTable st' = analyzingTable st.
Proof. apply parseLine_step. Qed.

Lemma parseLine_header_or_body_witness :
  (∃ infos2, lineInfos "CREATE TABLE `orders` (" !! 2 = Some infos2
     ∧ mkState (mkTable "orders" ∅ ∅ ∅)
         {["t" := table Samples.stateAfterFkA]} true
       = mkState (mkTable (strings.Trim infos2 "`") ∅ ∅ ∅)
           (<[Name (table Samples.stateAfterFkA)
              := table Samples.stateAfterFkA]> ∅) true)
  ∧ tables (mkState (setColumn (table Samples.stateAfterFkA) "id"
                       (mkColumn "id" "INT" "")) ∅ true)
    = tables Samples.stateAfterFkA.
Proof.
  split.
  - apply (parseLine_header_or_body Samples.stateAfterFkA
             (mkState (mkTable "orders" ∅ ∅ ∅)
                {["t" := table Samples.stateAfterFkA]} true)
             "CREATE TABLE `orders` (").
    reflexivity.
  - apply (parseLine_header_or_body Samples.stateAfterFkA
             (mkState (setColumn (table Samples.stateAfterFkA) "id"
                         (mkColumn "id" "INT" "")) ∅ true)
             "  `id` INT").
    reflexivity.
Defined.

Lemma countHeaders_cons_lines (value : string) (res : list string) :
  length (filter (λ value, isHeaderLine value = true) (value :: res))
  = (if isHeaderLine value then 1 else 0)
    + length (filter (λ value, isHeaderLine value = true) res).
Proof.
  rewrite filter_cons. destruct (isHeaderLine value); by case_decide.
Qed.

Lemma parseLines_size (res : list string) (st st' : State) (h : nat) :
  parseLines st res = Some st' →
  (size (tables st) + (if analyzingTable st then 1 else 0) ≤ h)%nat →
  (analyzingTable st = false → tables st = ∅) →
  (size (tables st') + (if analyzingTable st' then 1 else 0)
   ≤ h + length (filter (λ value, isHeaderLine value = true) res))%nat
  ∧ (analyzingTable st' = false → tables st' = ∅).
Proof.
  revert st h. induction res as [|value res IH]; intros st h; simpl.
  - intros [= <-] Hsize Hout. split; [lia|done].
  - destruct (parseLine st value) as [st1|] eqn:Hline; simpl; [|done].
    intros Hrest Hsize Hout. rewrite countHeaders_cons_lines.
    pose proof (parseLine_step _ _ _ Hline) as Hstep.
    destruct (isHeaderLine value).
    + destruct Hstep as (infos2 & _ & ->).
      assert (size (if analyzingTable st
                    then <[Name (table st) := table st]> (tables st)
                    else tables st) + 1 ≤ S h)%nat as Hsize'.
      { revert Hsize. destruct (analyzingTable st); [|lia].
        rewrite map_size_insert.
        destruct (tables st !! Name (table st)); simpl; unfold id; lia. }
      destruct (IH _ (S h) Hrest Hsize') as [Hle Hout']; [done|].
      split; [lia|done].
    + destruct Hstep as (Hts & _ & Han).
      assert (size (tables st1) + (if analyzingTable st1 then 1 else 0) ≤ h)%nat
        as Hsize' by by rewrite Hts, Han.
      destruct (IH _ h Hrest Hsize') as [Hle Hout']; [by rewrite Hts, Han|].
      split; [lia|done].
Qed.

(** X13. A returned schema is never empty, and it holds at most as many
    tables as the text has header lines; without a header line, exactly the
    one never-opened table. *)
Theorem parseTables_size (data : string) (A : gmap string Table) :
  parseTables data = Some A →
  (1 ≤ size A ≤ max 1 (countHeaders data))%nat.
Proof.
  unfold parseTables, countHeaders.
  destruct (parseLines initState _) as [st|] eqn:Hlines; simpl; [|done].
  intros [= <-].
  destruct (parseLines_size _ _ _ 0 Hlines) as [Hle Hout];
    [simpl; rewrite map_size_empty; lia|done|].
  rewrite map_size_insert. revert Hle Hout.
  destruct (analyzingTable st); intros Hle Hout.
  - destruct (tables st !! Name (table st)) eqn:Hk; simpl; unfold id; [|lia].
    assert (size (tables st) ≠ 0); [|lia].
    apply map_size_non_empty_iff. intros Hempty.
    by rewrite Hempty, lookup_empty in Hk.
  - rewrite (Hout eq_refl), lookup_empty, map_size_empty. simpl. lia.
Qed.

Lemma parseTables_size_witness :
  (1 ≤ size Samples.schemaA ≤ max 1 (countHeaders Samples.textA))%nat.
Proof.
  apply (parseTables_size Samples.textA Samples.schemaA). reflexivity.
Defined.


(** ** Tokens and trimming *)

Lemma Join_cons (e : string) (elems : list string) (sep : string) :
  elems ≠ [] →
  strings.Join (e :: elems) sep = e +:+ sep +:+ strings.Join elems sep.
Proof. by destruct elems. Qed.

Lemma Join_Split (s : string) (sep : ascii) :
  strings.Join (strings.Split s sep) (String sep EmptyString) = s.
Proof.
  induction s as [|c s IH]; simpl; [done|].
  destruct (Split_cons s sep) as (w & ws & Hs).
  case_decide as Hc.
  - subst c. rewrite Join_cons by by rewrite Hs. simpl. by rewrite IH.
  - rewrite Hs in *. destruct ws as [|w' ws].
    + simpl in *. by rewrite IH.
    + rewrite Join_cons in IH by done. rewrite Join_cons by done.
      rewrite <- IH. reflexivity.
Qed.

(** X14. Splitting a line into tokens loses nothing: the tokens joined by
    single spaces are the line without its surrounding spaces.  So the
    remainder stored for a column is the text that follows the second token,
    inner runs of spaces included. *)
Theorem tokens_rejoin (value : string) :
  strings.Join (lineInfos value) " " = strings.Trim value " "
  ∧ ∀ infos0 infos1 infos2 rest,
      lineInfos value = infos0 :: infos1 :: infos2 :: rest →
      strings.Trim value " "
      = infos0 +:+ " " +:+ infos1 +:+ " " +:+ strings.Join (infos2 :: rest) " ".
Proof.
  assert (strings.Join (lineInfos value) " " = strings.Trim value " ") as Hjoin
    by apply Join_Split.
  split; [done|]. intros infos0 infos1 infos2 rest Hinfos.
  by rewrite <- Hjoin, Hinfos.
Qed.

Lemma tokens_rejoin_witness :
  strings.Trim "  `name` VARCHAR(50)  NOT NULL," " "
  = "`name`" +:+ " " +:+ "VARCHAR(50)" +:+ " "
    +:+ strings.Join [""; "NOT"; "NULL,"] " ".
Proof.
  destruct (tokens_rejoin "  `name` VARCHAR(50)  NOT NULL,") as [_ Hrest].
  apply (Hrest "`name`" "VARCHAR(50)" "" ["NOT"; "NULL,"]). reflexivity.
Defined.

Lemma append_snoc_inv (s s' : string) (a c : ascii) :
  String a s = s' +:+ String c EmptyString →
  (s = EmptyString ∧ s' = EmptyString ∧ a = c)
  ∨ ∃ s'', s' = String a s'' ∧ s = s'' +:+ String c EmptyString.
Proof.
  destruct s' as [|a' s'']; simpl; intros [= -> ->]; eauto.
Qed.

Lemma trimRightByte_not_ends (s s' : string) (c : ascii) :
  strings.trimRightByte s c ≠ s' +:+ String c EmptyString.
Proof.
  revert s'. induction s as [|a s IH]; intros s'; simpl.
  - by destruct s'.
  - destruct (strings.trimRightByte s c) as [|b r] eqn:Hr.
    + case_decide; [by destruct s'|].
      intros [(_ & _ & ?)|(s'' & _ & Hnil)]%append_snoc_inv; [done|].
      by destruct s''.
    + intros [(? & _)|(s'' & _ & Hends)]%append_snoc_inv; [done|].
      by apply (IH s'').
Qed.

Lemma trimLeftByte_suffix (s : string) (c : ascii) :
  ∃ pre, s = pre +:+ strings.trimLeftByte s c.
Proof.
  induction s as [|a s (pre & IH)]; simpl; [by exists EmptyString|].
  case_decide.
  - exists (String a pre). change (String a s = String a (pre +:+ strings.trimLeftByte s c)).
    by f_equal.
  - by exists EmptyString.
Qed.

Lemma trimLeftByte_not_starts (s s' : string) (c : ascii) :
  strings.trimLeftByte s c ≠ String c s'.
Proof.
  induction s as [|a s IH]; simpl; [done|]. case_decide; [done|]. congruence.
Qed.

Lemma append_assoc (s1 s2 s3 : string) :
  s1 +:+ (s2 +:+ s3) = (s1 +:+ s2) +:+ s3.
Proof.
  induction s1 as [|a s1 IH]; [done|].
  change (String a (s1 +:+ (s2 +:+ s3)) = String a ((s1 +:+ s2) +:+ s3)).
  by f_equal.
Qed.

Lemma Trim_not_wrapped (s : string) (c : ascii) :
  ¬ wrapped c (strings.Trim s c).
Proof.
  unfold strings.Trim. intros [[s' Hs]|[s' Hs]].
  - by apply trimLeftByte_not_starts in Hs.
  - destruct (trimLeftByte_suffix (strings.trimRightByte s c) c) as (pre & Hpre).
    rewrite Hs, append_assoc in Hpre.
    by apply trimRightByte_not_ends in Hpre.
Qed.

Lemma empty_not_wrapped (c : ascii) : ¬ wrapped c EmptyString.
Proof. intros [[s' Hs]|[s' Hs]]; [done|]. by destruct s'. Qed.

(** ** Names without quoting *)

Lemma keyColumnName_bare (token : string) : ¬ wrapped "`" (keyColumnName token).
Proof. apply Trim_not_wrapped. Qed.

Lemma constraintColumnName_bare (token : string) :
  ¬ wrapped "`" (constraintColumnName token).
Proof. apply Trim_not_wrapped. Qed.

Local Arguments strings.Join : simpl never.

(** What a line can do to the parser's state, with the fields it stores. *)
Lemma parseLine_fields (st st' : State) (value : string) :
  parseLine st value = Some st' →
  st' = st
  ∨ (∃ infos2,
       st' = mkState (mkTable (strings.Trim infos2 "`") ∅ ∅ ∅)
               (if analyzingTable st
                then <[Name (table st) := table st]> (tables st)
                else tables st) true)
  ∨ (∃ infos0 infos1 rest,
       st' = withTable st
               (setColumn (table st) (strings.Trim infos0 "`")
                  (mkColumn (strings.Trim infos0 "`") infos1
                     (strings.Trim (strings.Join rest " ") ","))))
  ∨ (∃ infos1 infos2,
       st' = withTable st
               (setIndex (table st) (keyColumnName infos2)
                  (mkIndex (strings.Trim infos1 "`") (keyColumnName infos2))))
  ∨ (∃ infos1 infos2 infos4 rest,
       st' = withTable st
               (setConstraint (table st) (constraintColumnName infos4) infos2
                  (mkConstraint (strings.Trim infos1 "`")
                     (constraintColumnName infos4) infos2
                     (strings.Trim (strings.Join rest " ") ","))))
  ∨ (∃ infos0 infos2,
       st' = withTable st
               (setConstraint (table st) (keyColumnName infos2) infos0
                  (mkConstraint (keyColumnName infos2) (keyColumnName infos2)
                     infos0 ""))).
Proof.
  parseLine_tokens value;
    destruct st as [t ts [|]]; unfold withTable, sliceFrom; simpl;
    try (destruct (isKeyword infos0) eqn:Hkw; simpl);
    intros Hst.
  all: parseLine_branches Hst.
  all: try (injection Hst as <-).
  all: try congruence.
  all: try (left; reflexivity).
  all: try (right; left; eexists; reflexivity).
  all: try (right; right; left; do 3 eexists; reflexivity).
  all: try (right; right; right; left; do 2 eexists; reflexivity).
  all: try (right; right; right; right; left; do 4 eexists; reflexivity).
  all: right; right; right; right; right; do 2 eexists; reflexivity.
Qed.

Lemma bareTable_empty (tableName : string) :
  ¬ wrapped "`" tableName → bareTable (mkTable tableName ∅ ∅ ∅).
Proof.
  intros Hname. split_and!; [done|..]; repeat intros ?; simpl in *;
    by simplify_map_eq.
Qed.

Lemma bareTable_setColumn t name type other :
  ¬ wrapped "`" name → ¬ wrapped "," other →
  bareTable t → bareTable (setColumn t name (mkColumn name type other)).
Proof.
  intros Hname Hother (Hn & Hcols & Hidx & Hcon).
  split_and!; simpl; try done.
  intros k column [[<- <-]|[_ Hk]]%lookup_insert_Some; [done|]. by eapply Hcols.
Qed.

Lemma bareTable_setIndex t name columnName :
  ¬ wrapped "`" name → ¬ wrapped "`" columnName →
  bareTable t → bareTable (setIndex t columnName (mkIndex name columnName)).
Proof.
  intros Hname Hcol (Hn & Hcols & Hidx & Hcon).
  split_and!; simpl; try done.
  intros k index [[<- <-]|[_ Hk]]%lookup_insert_Some; [done|]. by eapply Hidx.
Qed.

Lemma bareTable_setConstraint t name columnName constraintType other :
  ¬ wrapped "`" name → ¬ wrapped "`" columnName → ¬ wrapped "," other →
  bareTable t →
  bareTable (setConstraint t columnName constraintType
               (mkConstraint name columnName constraintType other)).
Proof.
  intros Hname Hcol Hother (Hn & Hcols & Hidx & Hcon).
  split_and!; simpl; try done.
  intros col m kind c [[<- <-]|[Hne Hm]]%lookup_insert_Some.
  - intros [[<- <-]|[Hkind Hc]]%lookup_insert_Some; [done|].
    destruct (Constraints t !! columnName) as [m|] eqn:Hm;
      simpl in Hc; [|by rewrite lookup_empty in Hc].
    by eapply Hcon.
  - intros Hc. by eapply Hcon.
Qed.

Lemma parseLine_bare (st st' : State) (value : string) :
  bareTable (table st) →
  (∀ k t, tables st !! k = Some t → bareTable t) →
  parseLine st value = Some st' →
  bareTable (table st') ∧ (∀ k t, tables st' !! k = Some t → bareTable t).
Proof.
  intros Ht Hts Hline.
  destruct (parseLine_fields _ _ _ Hline)
    as [->|[(infos2 & ->)|[(infos0 & infos1 & rest & ->)
       |[(infos1 & infos2 & ->)|[(infos1 & infos2 & infos4 & rest & ->)
       |(infos0 & infos2 & ->)]]]]]; simpl; (split; [|try done]).
  - done.
  - apply bareTable_empty, Trim_not_wrapped.
  - destruct (analyzingTable st); [|done].
    intros k t [[<- <-]|[_ Hk]]%lookup_insert_Some; [done|]. by eapply Hts.
  - apply bareTable_setColumn; [apply Trim_not_wrapped..|done].
  - apply bareTable_setIndex;
      [apply Trim_not_wrapped|apply keyColumnName_bare|done].
  - apply bareTable_setConstraint;
      [apply Trim_not_wrapped|apply constraintColumnName_bare
      |apply Trim_not_wrapped|done].
  - apply bareTable_setConstraint;
      [apply keyColumnName_bare..|apply empty_not_wrapped|done].
Qed.

Lemma parseLines_bare (res : list string) (st st' : State) :
  bareTable (table st) →
  (∀ k t, tables st !! k = Some t → bareTable t) →
  parseLines st res = Some st' →
  bareTable (table st') ∧ (∀ k t, tables st' !! k = Some t → bareTable t).
Proof.
  revert st. induction res as [|value res IH]; intros st Ht Hts; simpl.
  - by intros [= <-].
  - destruct (parseLine st value) as [st1|] eqn:Hline; simpl; [|done].
    destruct (parseLine_bare _ _ _ Ht Hts Hline). eauto.
Qed.

(** X15. In a returned schema no table, column, index or constraint name,
    and no column name recorded with an index or a constraint, begins or
    ends with a back quote; no column remainder and no constraint clause
    begins or ends with a comma. *)
Theorem parseTables_bare (data : string) (A : gmap string Table) (k : string)
    (t : Table) :
  parseTables data = Some A → A !! k = Some t → bareTable t.
Proof.
  unfold parseTables.
  destruct (parseLines initState _) as [st|] eqn:Hlines; simpl; [|done].
  intros [= <-].
  assert (bareTable (table initState)) as Hinit
    by apply bareTable_empty, empty_not_wrapped.
  assert (∀ k' t', tables initState !! k' = Some t' → bareTable t') as Hnone.
  { intros k' t' Hk'. simpl in Hk'. by rewrite lookup_empty in Hk'. }
  destruct (parseLines_bare _ initState st Hinit Hnone Hlines) as [Ht Hts].
  intros [[<- <-]|[_ Hk]]%lookup_insert_Some; [done|]. by eapply Hts.
Qed.

Lemma parseTables_bare_witness : bareTable Samples.usersA.
Proof.
  apply (parseTables_bare Samples.textA Samples.schemaA "users" Samples.usersA);
    reflexivity.
Defined.


(** ** Index lines *)




(** * The pipeline of [main] *)

Lemma covers_self (A : gmap string Table) : wfSchema A → covers A A.
Proof.
  intros Hwf k tableA HA. destruct (Hwf k tableA HA) as (Hname & Hcols & Hidx).
  exists tableA. split_and!.
  - by rewrite Hname.
  - intros kc columnA Hc. exists columnA.
    by rewrite (Hcols kc columnA Hc).
  - intros ki indexA Hi. exists indexA. by rewrite (Hidx ki indexA Hi).
  - intros col m ty c Hm Hc. exists c. unfold lookupConstraint.
    by rewrite Hm.
Qed.

Lemma groupByType_nil_iff (ds : list Diff) :
  Forall knownType ds → groupByType ds = [] ↔ ds = [].
Proof.
  intros Hknown. split; [|by intros ->].
  intros Hnil. apply Permutation_nil_r.
  by rewrite <- (groupByType_perm ds Hknown), Hnil.
Qed.

(** X17. Comparing a text with itself reports nothing: whenever the text
    parses, the pipeline run on it twice returns the empty list. *)
Theorem report_same_text (O : RangeOrder) (data : string) :
  is_Some (parseTables data) → report O data data = Some [].
Proof.
  intros [A HA]. unfold report. rewrite HA. simpl. f_equal.
  apply groupByType_nil_iff; [apply knownType_compareTables|].
  apply nil_iff_covers, covers_self. by eapply parseTables_wf.
Qed.

Lemma report_same_text_witness :
  report defaultOrder Samples.textA Samples.textA = Some [].
Proof.
  apply report_same_text. exists Samples.schemaA. reflexivity.
Defined.

(** X18. The pipeline reports nothing exactly when both texts parse and the
    second schema has everything the first has. *)
Theorem report_nil_iff_covers (O : RangeOrder) (dataA dataB : string) :
  report O dataA dataB = Some []
  ↔ ∃ A B, parseTables dataA = Some A ∧ parseTables dataB = Some B
           ∧ covers A B.
Proof.
  unfold report. split.
  - destruct (parseTables dataA) as [A|]; simpl; [|done].
    destruct (parseTables dataB) as [B|]; simpl; [|done].
    intros [= Hnil]. exists A, B. split_and!; [done..|].
    apply (nil_iff_covers O).
    by apply groupByType_nil_iff; [apply knownType_compareTables|].
  - intros (A & B & -> & -> & Hcov). simpl. f_equal.
    apply groupByType_nil_iff; [apply knownType_compareTables|].
    by apply nil_iff_covers.
Qed.

Lemma fmap_ofType (k : string) (ds : list Diff) :
  Diff_Type <$> ofType k ds = replicate (length (ofType k ds)) k.
Proof.
  unfold ofType. induction ds as [|d ds IH]; [done|].
  rewrite filter_cons. case_decide as Hd; [|done].
  rewrite fmap_cons, IH, Hd. done.
Qed.

Lemma groupByType_kinds (ds ds' : list Diff) :
  ds ≡ₚ ds' → Diff_Type <$> groupByType ds = Diff_Type <$> groupByType ds'.
Proof.
  intros Hperm. rewrite !groupByType_ofType, !fmap_app, !fmap_ofType.
  unfold ofType. by rewrite !Hperm.
Qed.

(** X19. Whether the pipeline panics does not depend on the order in which
    the maps are visited; when it returns, two runs return the same records
    (a permutation of one another) and the same sequence of kinds: only the
    order of the records within one kind can differ between runs. *)
Theorem report_order_independent (O O' : RangeOrder) (dataA dataB : string) :
  match report O dataA dataB, report O' dataA dataB with
  | Some r, Some r' => r ≡ₚ r' ∧ Diff_Type <$> r = Diff_Type <$> r'
  | None, None => True
  | _, _ => False
  end.
Proof.
  unfold report.
  destruct (parseTables dataA) as [A|]; simpl; [|done].
  destruct (parseTables dataB) as [B|]; simpl; [|done].
  split.
  - rewrite !groupByType_perm by apply knownType_compareTables.
    apply compareTables_perm.
  - apply groupByType_kinds, compareTables_perm.
Qed.

(** * The earlier variant *)

Lemma isKeyword_Simple (infos0 : string) :
  isKeyword infos0 = Simple.isKeyword infos0 || bool_decide (infos0 = "UNIQUE").
Proof.
  unfold isKeyword, Simple.isKeyword, keywords, Simple.keywords; simpl.
  repeat case_bool_decide; simpl; try done.
Qed.

Ltac simpleLine_tokens value :=
  unfold parseLine, Simple.parseLine, lineInfos;
  destruct (strings.Split (strings.Trim value " ") " ")
    as [|infos0 [|infos1 [|infos2 [|infos3 [|infos4 rest]]]]].

Lemma parseLine_simplify (st st' : State) (value : string) :
  lineInfos value !! 0 ≠ Some "UNIQUE" →
  parseLine st value = Some st' →
  Simple.parseLine (simplifyState st) value = Some (simplifyState st').
Proof.
  unfold simplifyState. simpleLine_tokens value;
    destruct st as [t ts [|]]; unfold withTable, sliceFrom; simpl;
    try rewrite (isKeyword_Simple infos0);
    try (destruct (Simple.isKeyword infos0) eqn:Hkw; simpl);
    intros Hunique Hst.
  all: parseLine_branches Hst.
  all: try (injection Hst as <-); simpl.
  all: try congruence.
  all: try reflexivity.
  all: try (rewrite fmap_insert; reflexivity).
Qed.

Lemma parseLines_simplify (res : list string) (st st' : State) :
  Forall (λ value, lineInfos value !! 0 ≠ Some "UNIQUE") res →
  parseLines st res = Some st' →
  Simple.parseLines (simplifyState st) res = Some (simplifyState st').
Proof.
  intros Hres. revert st. induction Hres as [|value res Hv _ IH]; intros st; simpl.
  - by intros [= <-].
  - destruct (parseLine st value) as [st1|] eqn:Hline; simpl; [|done].
    rewrite (parseLine_simplify _ _ _ Hv Hline). simpl. apply IH.
Qed.

Lemma parseTables_simplify (data : string) (A : gmap string Table) :
  Forall (λ value, lineInfos value !! 0 ≠ Some "UNIQUE")
    (strings.Split data newline) →
  parseTables data = Some A →
  Simple.parseTables data = Some (simplify <$> A).
Proof.
  intros Hlines. unfold parseTables, Simple.parseTables.
  destruct (parseLines initState _) as [st|] eqn:Hst; simpl; [|done].
  intros [= <-].
  change Simple.initState with (simplifyState initState).
  rewrite (parseLines_simplify _ _ _ Hlines Hst). simpl.
  by rewrite fmap_insert.
Qed.

(** X20. On a text no line of which has [UNIQUE] as its first token, the
    earlier parser returns whenever the later one does, and returns the same
    tables under the same names with the same columns (and no indexes or
    constraints). *)
Theorem earlier_parser_agrees (data : string) (A : gmap string Table) :
  Forall (λ value, lineInfos value !! 0 ≠ Some "UNIQUE")
    (strings.Split data newline) →
  parseTables data = Some A →
  Simple.parseTables data = Some (simplify <$> A).
Proof. apply parseTables_simplify. Qed.

Lemma earlier_parser_agrees_witness :
  Simple.parseTables Samples.textA = Some (simplify <$> Samples.schemaA).
Proof.
  apply earlier_parser_agrees; [|reflexivity].
  vm_compute. repeat constructor; discriminate.
Defined.

Lemma parseLine_earlier_returns (st st' : State) (sst : Simple.State)
    (value : string) :
  Simple.analyzingTable sst = analyzingTable st →
  parseLine st value = Some st' →
  ∃ sst', Simple.parseLine sst value = Some sst'
          ∧ Simple.analyzingTable sst' = analyzingTable st'.
Proof.
  simpleLine_tokens value;
    destruct st as [t ts an], sst as [t0 ts0 an0];
    unfold withTable, sliceFrom; simpl; intros ->;
    try rewrite (isKeyword_Simple infos0);
    try (destruct (Simple.isKeyword infos0) eqn:Hkw; simpl);
    destruct an; simpl; intros Hst.
  all: parseLine_branches Hst.
  all: try (injection Hst as <-); simpl.
  all: try congruence.
  all: eexists; split; reflexivity.
Qed.

Lemma parseLines_earlier_returns (res : list string) (st st' : State)
    (sst : Simple.State) :
  Simple.analyzingTable sst = analyzingTable st →
  parseLines st res = Some st' →
  is_Some (Simple.parseLines sst res).
Proof.
  revert st sst. induction res as [|value res IH]; intros st sst Han; simpl.
  - by eexists.
  - destruct (parseLine st value) as [st1|] eqn:Hline; simpl; [|done].
    destruct (parseLine_earlier_returns _ _ sst _ Han Hline)
      as (sst1 & -> & Han1).
    simpl. by apply IH.
Qed.

(** X21. The earlier parser panics on no text that the later parser
    accepts: whenever the later [parseTables] returns a schema, so does
    the earlier one. *)
Theorem earlier_parser_returns (data : string) :
  is_Some (parseTables data) → is_Some (Simple.parseTables data).
Proof.
  unfold parseTables, Simple.parseTables.
  destruct (parseLines initState _) as [st|] eqn:Hst; simpl;
    [|by intros [? ?]].
  intros _.
  destruct (parseLines_earlier_returns _ initState st Simple.initState
              eq_refl Hst) as [sst ->].
  by eexists.
Qed.

Lemma earlier_parser_returns_witness :
  is_Some (Simple.parseTables Samples.textTwice).
Proof.
  apply earlier_parser_returns. exists {["t" := Samples.tableTwice]}.
  reflexivity.
Defined.




(** ** The earlier engine *)

Lemma filter_all {X : Type} (P : X → Prop) `{∀ x, Decision (P x)} (l : list X) :
  Forall P l → filter P l = l.
Proof.
  induction 1 as [|x l Hx _ IH]; [done|].
  by rewrite filter_cons, decide_True, IH.
Qed.

Lemma filter_none {X : Type} (P : X → Prop) `{∀ x, Decision (P x)} (l : list X) :
  Forall (λ x, ¬ P x) l → filter P l = [].
Proof.
  induction 1 as [|x l Hx _ IH]; [done|].
  by rewrite filter_cons, decide_False, IH.
Qed.

Lemma filter_bind {X Y : Type} (P : Y → Prop) `{∀ y, Decision (P y)}
    (f : X → list Y) (l : list X) :
  filter P (l ≫= f) = l ≫= (λ x, filter P (f x)).
Proof.
  induction l as [|x l IH]; [done|].
  by rewrite !bind_cons, filter_app, IH.
Qed.

Lemma Forall_bind_list {X Y : Type} (P : Y → Prop) (f : X → list Y) (l : list X) :
  (∀ x, Forall P (f x)) → Forall P (l ≫= f).
Proof.
  intros Hf. induction l as [|x l IH]; [constructor|].
  rewrite bind_cons. apply Forall_app. auto.
Qed.

Ltac column_kind :=
  unfold isColumnKind, columnKinds; simpl;
  rewrite ?elem_of_cons, ?elem_of_nil;
  unfold MissingTable, MissingColumn, WrongColumnType, WrongColumnOther,
    MissingIndex, MissingConstraint, WrongConstraintOther;
  first [tauto | intuition congruence].

Lemma columnDiffs_columnKind tableA tableB columnA :
  Forall isColumnKind (columnDiffs tableA tableB columnA).
Proof.
  unfold columnDiffs.
  destruct (Columns tableB !! _); repeat case_decide; simpl;
    repeat constructor; column_kind.
Qed.

Lemma indexDiffs_not_columnKind tableA tableB indexA :
  Forall (λ d, ¬ isColumnKind d) (indexDiffs tableA tableB indexA).
Proof.
  unfold indexDiffs. destruct (Indexes tableB !! _);
    repeat constructor; column_kind.
Qed.

Lemma constraintDiffs_not_columnKind tableA tableB columnNameA entry :
  Forall (λ d, ¬ isColumnKind d)
    (constraintDiffs tableA tableB columnNameA entry).
Proof.
  unfold constraintDiffs. destruct entry as [ty c].
  destruct (lookupConstraint _ _ _); repeat case_decide;
    repeat constructor; column_kind.
Qed.

Lemma Simple_columnDiffs tableA tableB columnA :
  Simple.columnDiffs (simplify tableA) (simplify tableB) columnA
  = columnDiffs tableA tableB columnA.
Proof. reflexivity. Qed.

Lemma Simple_tableDiffs (O O' : RangeOrder) (B : gmap string Table)
    (tableA : Table) :
  Simple.tableDiffs O' (simplify <$> B) (simplify tableA)
  ≡ₚ filter isColumnKind (tableDiffs O B tableA).
Proof.
  unfold Simple.tableDiffs. simpl. rewrite lookup_fmap.
  destruct (B !! Name tableA) as [tableB|] eqn:HB; simpl.
  - rewrite (tableDiffs_found _ _ _ _ HB), !filter_app.
    rewrite (filter_all isColumnKind)
      by apply Forall_bind_list, columnDiffs_columnKind.
    rewrite (filter_none isColumnKind ((range O (Indexes tableA)).*2 ≫= _))
      by apply Forall_bind_list, indexDiffs_not_columnKind.
    rewrite (filter_none isColumnKind).
    2: { apply Forall_bind_list. intros [col m].
         rewrite columnConstraintDiffs_bind.
         apply Forall_bind_list, constraintDiffs_not_columnKind. }
    rewrite !app_nil_r, appendEach_bind, app_nil_l.
    apply bind_perm; [apply range_values_perm|done].
  - rewrite (tableDiffs_missing _ _ _ HB).
    rewrite filter_all; [done|]. repeat constructor.
Qed.

Lemma Simple_compareTables (O O' : RangeOrder) (A B : gmap string Table) :
  Simple.compareTables O' (simplify <$> A) (simplify <$> B)
  ≡ₚ filter isColumnKind (compareTables O A B).
Proof.
  unfold Simple.compareTables.
  rewrite appendEach_bind, app_nil_l, compareTables_bind, filter_bind.
  assert ((range O' (simplify <$> A)).*2 ≡ₚ simplify <$> (range O A).*2) as ->.
  { rewrite !range_perm, map_to_list_fmap.
    induction (map_to_list A) as [|[k t] l IH]; [done|].
    rewrite !fmap_cons. simpl. by rewrite IH. }
  induction ((range O A).*2) as [|tableA l IH]; [done|].
  rewrite fmap_cons, !bind_cons, IH. apply Permutation_app; [|done].
  apply Simple_tableDiffs.
Qed.

(** X23. On the same schemas the earlier engine reports exactly the table
    and column records of the later one (MISSING_TABLE, MISSING_COLUMN,
    WRONG_COLUMN_TYPE, WRONG_COLUMN_OTHER), each as often; the index and
    constraint records are what the later engine adds. *)
Theorem earlier_engine_agrees (O O' : RangeOrder) (A B : gmap string Table) :
  Simple.compareTables O' (simplify <$> A) (simplify <$> B)
  ≡ₚ filter isColumnKind (compareTables O A B).
Proof. apply Simple_compareTables. Qed.

(** X24. On two texts without a line that starts with [UNIQUE], whenever
    the later program reports, the earlier program reports too, and its
    records are exactly the table and column records of the later report. *)
Theorem earlier_report_agrees (O O' : RangeOrder) (dataA dataB : string)
    (r : list Diff) :
  Forall (λ value, lineInfos value !! 0 ≠ Some "UNIQUE")
    (strings.Split dataA newline) →
  Forall (λ value, lineInfos value !! 0 ≠ Some "UNIQUE")
    (strings.Split dataB newline) →
  report O dataA dataB = Some r →
  ∃ r', Simple.report O' dataA dataB = Some r' ∧ r' ≡ₚ filter isColumnKind r.
Proof.
  intros HA HB. unfold report, Simple.report.
  destruct (parseTables dataA) as [A|] eqn:HpA; simpl; [|done].
  destruct (parseTables dataB) as [B|] eqn:HpB; simpl; [|done].
  intros [= <-].
  rewrite (parseTables_simplify _ _ HA HpA), (parseTables_simplify _ _ HB HpB).
  simpl. eexists. split; [done|].
  rewrite (Simple_compareTables O O').
  by rewrite (groupByType_perm _ (knownType_compareTables O A B)).
Qed.

Lemma earlier_report_agrees_witness :
  ∃ r', Simple.report defaultOrder Samples.textComma Samples.textNotNull = Some r'
        ∧ r' ≡ₚ filter isColumnKind
                  [ mkDiff WrongColumnType "t.id" "INT," "INT";
                    mkDiff WrongColumnOther "t.id" "" "NOT NULL" ].
Proof.
  apply (earlier_report_agrees defaultOrder defaultOrder Samples.textComma
           Samples.textNotNull).
  - vm_compute. repeat constructor; discriminate.
  - vm_compute. repeat constructor; discriminate.
  - reflexivity.
Defined.
